(** * A ZooKeeper global lock: the [lock] package of gozk-recipes

    Shallow embedding of [src/lock/lock.go].  The handle [GlobalLock] talks
    to the coordination service through four methods of the gozk connection
    ([Create], [Children], [ExistsW], [Delete]) and blocks on the watch
    channel returned by [ExistsW].  The client is outside the package, so a
    call of [Lock] or [Unlock] is embedded as a tree of client calls: every
    node is one call, every branch one possible answer of the client.  The
    two [for] loops of [Lock] are unbounded; they are unrolled under a fuel
    counter, one unit per iteration of either loop. *)

From Stdlib Require Import ZArith NArith Nnat List String Ascii Bool Lia Sorted Permutation.
Import ListNotations.

Local Open Scope Z_scope.

(** ** Go values used by the package *)

(** A Go [error]: either what the zookeeper client hands back (its error
    code) or a value built by [fmt.Errorf] (its message).  The [nil] error
    is [None : option error]. *)
Inductive error : Type :=
| ZkError (code : Z)
| ErrorString (msg : string).

(** Indexing a slice with a Go [int]: out of range is a run-time panic,
    rendered here as [None]. *)
Definition index {A : Type} (l : list A) (i : Z) : option A :=
  if i <? 0 then None else nth_error l (Z.to_nat i).

Definition len {A : Type} (l : list A) : Z := Z.of_nat (List.length l).

Module fmt.

(** [fmt.Sprintf] for a format whose only verb is one [%s]. *)
Fixpoint Sprintf (format : string) (a : string) : string :=
  match format with
  | EmptyString => EmptyString
  | String "%" (String "s" rest) => (a ++ rest)%string
  | String c rest => String c (Sprintf rest a)
  end.

Definition Errorf (format : string) (a : string) : error :=
  ErrorString (Sprintf format a).

End fmt.

Module path.

Definition slash : ascii := "/"%char.

(** [path[0:len(path)-1]] while the last byte is a slash. *)
Fixpoint stripTrailingSlashes (p : string) : string :=
  match p with
  | EmptyString => EmptyString
  | String c rest =>
      match stripTrailingSlashes rest with
      | EmptyString => if Ascii.eqb c slash then EmptyString else String c EmptyString
      | rest' => String c rest'
      end
  end.

Fixpoint hasSlash (p : string) : bool :=
  match p with
  | EmptyString => false
  | String c rest => Ascii.eqb c slash || hasSlash rest
  end.

(** [path[i+1:]] for the last slash at [i]; the whole path without one. *)
Fixpoint afterLastSlash (p : string) : string :=
  match p with
  | EmptyString => EmptyString
  | String c rest =>
      if hasSlash rest then afterLastSlash rest
      else if Ascii.eqb c slash then rest
      else p
  end.

(** Go's [path.Base]: the last element of the path.  The empty path gives
    ["."], a path of slashes only gives ["/"]. *)
Definition Base (p : string) : string :=
  if String.eqb p "" then "."%string
  else
    let p1 := stripTrailingSlashes p in
    let p2 := afterLastSlash p1 in
    if String.eqb p2 "" then "/"%string else p2.

End path.

Module sort.

(** Go compares strings byte by byte; [String.leb] is that order. *)
Fixpoint insert (x : string) (l : list string) : list string :=
  match l with
  | [] => [x]
  | y :: l' => if String.leb x y then x :: l else y :: insert x l'
  end.

(** [sort.Strings]: the slice in increasing order.  The order on strings
    is total and equal strings are the same value, so the sorted slice
    does not depend on the sorting algorithm ([Strings_unique] below);
    insertion sort stands for the library's. *)
Fixpoint Strings (a : list string) : list string :=
  match a with
  | [] => []
  | x :: a' => insert x (Strings a')
  end.

(** The loop of [sort.Search]: [for i < j { h := int(uint(i+j) >> 1);
    if !f(h) { i = h + 1 } else { j = h } }; return i].  Each turn
    shrinks [j - i], so [j - i] turns of fuel are enough. *)
Fixpoint SearchLoop (fuel : nat) (f : Z -> bool) (i j : Z) : Z :=
  match fuel with
  | O => i
  | S fuel' =>
      if i <? j then
        let h := Z.shiftr (i + j) 1 in
        if negb (f h) then SearchLoop fuel' f (h + 1) j
        else SearchLoop fuel' f i h
      else i
  end.

Definition Search (n : Z) (f : Z -> bool) : Z :=
  SearchLoop (Z.to_nat n) f 0 n.

(** [sort.SearchStrings(a, x)]: [Search(len(a), a[i] >= x)]. *)
Definition SearchStrings (a : list string) (x : string) : Z :=
  Search (len a)
         (fun i => match index a i with
                   | Some s => String.leb x s
                   | None => false
                   end).

End sort.

(** ** The zookeeper client, as far as the package uses it *)

Module zookeeper.

Definition Conn := nat.

(** Node metadata; the package only tests it against [nil]. *)
Record Stat : Type := { Version : Z }.

(** A watch channel [<-chan Event], by its identity. *)
Definition Watch := nat.

Record ACL : Type := { Perms : Z; Scheme : string; Id : string }.

Definition EPHEMERAL : Z := 1.
Definition SEQUENCE : Z := 2.
Definition PERM_ALL : Z := 31.

Definition WorldACL (perms : Z) : list ACL :=
  [ {| Perms := perms; Scheme := "world"; Id := "anyone" |} ].

End zookeeper.
Import zookeeper.

(** Modelled from the spec: package [session] of this repository is not
    part of the sources at hand; the handle keeps "an explicit reference to
    the coordination session", of which [Lock] and [Unlock] use the field
    [Connection] only. *)
Record ZkSession : Type := { Connection : Conn }.

(** The calls the package makes, indexed by what they give back.
    [Children] also returns a [Stat]. [Recv w] is the receive [<-w]. *)
Inductive zkCall : Type -> Type :=
| Create (conn : Conn) (path value : string) (flags : Z) (aclv : list ACL)
    : zkCall (string * option error)
| Children (conn : Conn) (path : string)
    : zkCall (list string * option Stat * option error)
| ExistsW (conn : Conn) (path : string)
    : zkCall (option Stat * Watch * option error)
| Recv (w : Watch) : zkCall unit
| Delete (conn : Conn) (path : string) (version : Z)
    : zkCall (option error).

(** A computation that talks to the client. *)
Inductive zk (R : Type) : Type :=
| Return (r : R)
| Panic (msg : string)
| OutOfFuel
| Call {A : Type} (c : zkCall A) (k : A -> zk R).

Arguments Return {R} r.
Arguments Panic {R} msg.
Arguments OutOfFuel {R}.
Arguments Call {R A} c k.

Fixpoint bind {R S : Type} (m : zk R) (f : R -> zk S) : zk S :=
  match m with
  | Return r => f r
  | Panic msg => Panic msg
  | OutOfFuel => OutOfFuel
  | Call c k => Call c (fun a => bind (k a) f)
  end.

Definition call {A : Type} (c : zkCall A) : zk A := Call c Return.

Declare Scope zk_scope.
Delimit Scope zk_scope with zk.
Notation "x <- m ;; k" := (bind m (fun x => k))
  (at level 61, m at next level, right associativity) : zk_scope.
Notation "' pat <- m ;; k" := (bind m (fun x => match x with pat => k end))
  (at level 61, pat pattern, m at next level, right associativity) : zk_scope.
Local Open Scope zk_scope.

(** ** The lock handle *)

Record GlobalLock : Type := {
  Session : ZkSession;
  root : string;
  ephemeralPath : string;
  locked : bool
}.

Definition NewGlobalLock (session : ZkSession) (root : string) : GlobalLock :=
  {| Session := session; root := root; ephemeralPath := ""; locked := false |}.

Definition set_ephemeralPath (g : GlobalLock) (p : string) : GlobalLock :=
  {| Session := Session g; root := root g; ephemeralPath := p; locked := locked g |}.

Definition set_locked (g : GlobalLock) (b : bool) : GlobalLock :=
  {| Session := Session g; root := root g; ephemeralPath := ephemeralPath g; locked := b |}.

Definition conn (g : GlobalLock) : Conn := Connection (Session g).

Definition msgNotObtained : string :=
  "Lock in unknown state. Ephemeral path %s exists but lock not obtained.".
Definition msgNoChildren : string :=
  "Lock in unknown state. Ephemeral path %s exists but there are no children.".

(** What a method gives back: the handle as the call left it, and [err]. *)
Definition result : Type := GlobalLock * option error.

(** The outer loop of [Lock] (steps 2 and 3) and its inner loop (steps 4
    to 6).  [lockLoop] is entered at [children, _, err = ...Children(g.root)];
    the error of that call is assigned and not read. [watchLoop] is entered
    at [...ExistsW(g.root + "/" + children[myIndex-1])]. *)
Fixpoint lockLoop (fuel : nat) (g : GlobalLock) : zk result :=
  match fuel with
  | O => OutOfFuel
  | S fuel' =>
      '(children, _, _) <- call (Children (conn g) (root g)) ;;
      let children := sort.Strings children in
      if len children =? 0 then
        Return (g, Some (fmt.Errorf msgNoChildren (ephemeralPath g)))
      else
        match index children 0 with
        | None => Panic "index out of range"
        | Some first =>
            if String.eqb first (path.Base (ephemeralPath g)) then
              Return (set_locked g true, None)
            else
              let myIndex := sort.SearchStrings children (path.Base (ephemeralPath g)) in
              watchLoop fuel' g children myIndex
        end
  end
with watchLoop (fuel : nat) (g : GlobalLock) (children : list string) (myIndex : Z)
  : zk result :=
  match fuel with
  | O => OutOfFuel
  | S fuel' =>
      match index children (myIndex - 1) with
      | None => Panic "index out of range"
      | Some predecessor =>
          '(stat, w, err) <- call (ExistsW (conn g) (root g ++ "/" ++ predecessor)%string) ;;
          match err with
          | Some e => Return (g, Some e)
          | None =>
              match stat with
              | None => lockLoop fuel' g
              | Some _ =>
                  _ <- call (Recv w) ;;
                  watchLoop fuel' g children myIndex
              end
          end
      end
  end.

Definition Lock (fuel : nat) (g : GlobalLock) : zk result :=
  if locked g then Return (g, None)
  else if 0 <? Z.of_nat (String.length (ephemeralPath g)) then
    Return (g, Some (fmt.Errorf msgNotObtained (ephemeralPath g)))
  else
    '(created, err) <- call (Create (conn g) (root g ++ "/")%string ""
                                    (Z.lor EPHEMERAL SEQUENCE) (WorldACL PERM_ALL)) ;;
    let g := set_ephemeralPath g created in
    match err with
    | Some e => Return (g, Some e)
    | None => lockLoop fuel g
    end.

Definition Unlock (g : GlobalLock) : zk result :=
  err <- call (Delete (conn g) (ephemeralPath g) (-1)) ;;
  match err with
  | None => Return (set_locked (set_ephemeralPath g "") false, None)
  | Some e => Return (g, Some e)
  end.

(** ** Running a computation against the answers of the client *)

(** One call together with the answer it got. *)
Inductive event : Type :=
| Ev {A : Type} (c : zkCall A) (a : A).

(** An answer of the client, before it is known which call it meets. *)
Inductive reply : Type :=
| RCreate (r : string * option error)
| RChildren (r : list string * option Stat * option error)
| RExistsW (r : option Stat * Watch * option error)
| RRecv
| RDelete (r : option error).

Definition accept {A : Type} (c : zkCall A) (r : reply) : option A :=
  match c in zkCall T return option T with
  | Create _ _ _ _ _ => match r with RCreate x => Some x | _ => None end
  | Children _ _ => match r with RChildren x => Some x | _ => None end
  | ExistsW _ _ => match r with RExistsW x => Some x | _ => None end
  | Recv _ => match r with RRecv => Some tt | _ => None end
  | Delete _ _ _ => match r with RDelete x => Some x | _ => None end
  end.

Inductive outcome (R : Type) : Type :=
| Returned (r : R)      (* the method returned *)
| Panicked (msg : string)
| Diverged              (* the fuel ran out inside a loop *)
| Blocked               (* no answer left: the method waits for the client *)
| Unexpected.           (* an answer of the wrong shape for the pending call *)

Arguments Returned {R} r.
Arguments Panicked {R} msg.
Arguments Diverged {R}.
Arguments Blocked {R}.
Arguments Unexpected {R}.

(** [run p script] feeds [script] to [p], answer by answer, and gives the
    calls made with their answers and how [p] ended. *)
Fixpoint run {R : Type} (p : zk R) (script : list reply) : list event * outcome R :=
  match p with
  | Return r => ([], Returned r)
  | Panic msg => ([], Panicked msg)
  | OutOfFuel => ([], Diverged)
  | Call c k =>
      match script with
      | [] => ([], Blocked)
      | r :: script' =>
          match accept c r with
          | None => ([], Unexpected)
          | Some a => let (log, o) := run (k a) script' in (Ev c a :: log, o)
          end
      end
  end.

Definition isWatch (e : event) : bool :=
  match e with
  | Ev (ExistsW _ _) _ => true
  | _ => false
  end.

Definition isClientError (e : error) : bool :=
  match e with
  | ZkError _ => true
  | ErrorString _ => false
  end.

Fixpoint lastEvent (log : list event) : option event :=
  match log with
  | [] => None
  | e :: log' => match log' with [] => Some e | _ :: _ => lastEvent log' end
  end.

(** The children a [Children] call was answered with. *)
Definition listing (e : event) : option (list string) :=
  match e with
  | Ev (Children _ _) (children, _, _) => Some children
  | _ => None
  end.

(** The path a call addresses, when the call is [ExistsW]. *)
Definition watched (e : event) : option string :=
  match e with
  | Ev (ExistsW _ p) _ => Some p
  | _ => None
  end.

(** ** Sequence numbers of node names

    The service appends a decimal counter to the name of a sequential
    node.  [seqSuffix] reads the number written by the digits a name ends
    with; it is the order the recipe speaks of, where [sort.Strings]
    orders whole names byte by byte. *)







Definition byName (a b : string) : Prop := String.leb a b = true.

(** The run ended on a listing whose least name is the handle's own. *)
Definition grantedAtMinimum (g : GlobalLock) (log : list event) (r : result) : Prop :=
  r = (set_locked g true, None) /\
  exists e children,
    lastEvent log = Some e /\ listing e = Some children /\
    hd_error (sort.Strings children) = Some (path.Base (ephemeralPath g)).

(** ** Reading a log *)

(** What [Create] was answered with. *)
Definition createAnswer (e : event) : option (string * option error) :=
  match e with
  | Ev (Create _ _ _ _ _) a => Some a
  | _ => None
  end.

(** What [ExistsW] was answered with. *)
Definition watchAnswer (e : event) : option (option Stat * Watch * option error) :=
  match e with
  | Ev (ExistsW _ _) a => Some a
  | _ => None
  end.

(** The channel a receive was made on. *)
Definition received (e : event) : option Watch :=
  match e with
  | Ev (Recv w) _ => Some w
  | _ => None
  end.

(** The channel an [ExistsW] left to wait on: the node exists and the
    call did not fail. *)
Definition armed (e : event) : option Watch :=
  match e with
  | Ev (ExistsW _ _) (Some _, w, None) => Some w
  | _ => None
  end.

(** How a return of the loops can come about, seen from the last call [e]:
    the own name first in the listing, an empty listing, or a failed
    [ExistsW]. *)
Definition loopExit (g : GlobalLock) (e : event) (r : result) : Prop :=
  (r = (set_locked g true, None) /\
   exists children, listing e = Some children /\
     hd_error (sort.Strings children) = Some (path.Base (ephemeralPath g))) \/
  (r = (g, Some (fmt.Errorf msgNoChildren (ephemeralPath g))) /\ listing e = Some []) \/
  (exists stat w err, r = (g, Some err) /\ watchAnswer e = Some (stat, w, Some err)).

(** The calls of the loops, read along a log: listings of the root and
    receives, and watches on a child named in the latest listing. *)
Fixpoint loopLog (g : GlobalLock) (latest : list string) (log : list event) : Prop :=
  match log with
  | [] => True
  | e :: log' =>
      match e with
      | Ev (Children c p) (children, _, _) =>
          c = conn g /\ p = root g /\ loopLog g children log'
      | Ev (ExistsW c p) _ =>
          c = conn g /\
          (exists name, In name latest /\ p = (root g ++ "/" ++ name)%string) /\
          loopLog g latest log'
      | Ev (Recv _) _ => loopLog g latest log'
      | _ => False
      end
  end.

(** Every receive comes right after the [ExistsW] that armed its channel. *)
Fixpoint recvArmed (previous : option event) (log : list event) : Prop :=
  match log with
  | [] => True
  | e :: log' =>
      match received e with
      | Some w => match previous with
                  | Some p => armed p = Some w
                  | None => False
                  end
      | None => True
      end /\ recvArmed (Some e) log'
  end.


(** ** Handles used in the examples *)

Definition exampleSession : ZkSession := {| Connection := 7%nat |}.

(** A handle as [NewGlobalLock] makes it. *)
Definition freshHandle : GlobalLock := NewGlobalLock exampleSession "/lock".

(** A handle whose node exists and which does not hold the lock. *)
Definition queuedHandle : GlobalLock :=
  {| Session := exampleSession; root := "/lock";
     ephemeralPath := "/lock/0000000001"; locked := false |}.

(** A handle that holds the lock. *)
Definition heldHandle : GlobalLock :=
  {| Session := exampleSession; root := "/lock";
     ephemeralPath := "/lock/0000000001"; locked := true |}.

Definition someStat : Stat := {| Version := 0 |}.

(** The client's answers when the node is created first in the queue. *)
Definition uncontended : list reply :=
  [RCreate ("/lock/0000000001"%string, None);
   RChildren (["0000000001"%string], None, None)].

(** The client's answers when the listing after [Create] is watched and
    the watch then fails. *)
Definition watchFails : list reply :=
  [RCreate ("/lock/0000000001"%string, None);
   RChildren (["0000000000"; "0000000001"]%string, None, None);
   RExistsW (None, 0%nat, Some (ZkError (-4)))].

(** * Properties *)

(** ** The byte order on strings *)

Section StringOrder.

Lemma ascii_compare_refl (c : ascii) : Ascii.compare c c = Eq.
Proof. unfold Ascii.compare. apply N.compare_refl. Qed.

Lemma string_compare_refl (s : string) : String.compare s s = Eq.
Proof.
  induction s as [|c s IH]; simpl; [reflexivity|].
  now rewrite ascii_compare_refl.
Qed.

Lemma string_compare_lt_trans (a : string) :
  forall b c, String.compare a b = Lt -> String.compare b c = Lt ->
              String.compare a c = Lt.
Proof.
  induction a as [|x a IH]; intros [|y b] [|z c]; simpl; try congruence.
  unfold Ascii.compare.
  destruct (N.compare_spec (N_of_ascii x) (N_of_ascii y)) as [Hxy|Hxy|Hxy];
    destruct (N.compare_spec (N_of_ascii y) (N_of_ascii z)) as [Hyz|Hyz|Hyz];
    try congruence; intros H1 H2.
  - rewrite Hxy, Hyz, N.compare_refl. eauto.
  - rewrite Hxy. now apply N.compare_lt_iff in Hyz as ->.
  - rewrite <- Hyz. now apply N.compare_lt_iff in Hxy as ->.
  - assert (Hxz : (N_of_ascii x < N_of_ascii z)%N) by lia.
    now apply N.compare_lt_iff in Hxz as ->.
Qed.

Lemma byName_refl (a : string) : byName a a.
Proof. unfold byName, String.leb. now rewrite string_compare_refl. Qed.

Lemma byName_trans (a b c : string) : byName a b -> byName b c -> byName a c.
Proof.
  unfold byName, String.leb. intros Hab Hbc.
  destruct (String.compare a b) eqn:Eab; try discriminate.
  - apply String.compare_eq_iff in Eab. now subst.
  - destruct (String.compare b c) eqn:Ebc; try discriminate.
    + apply String.compare_eq_iff in Ebc. subst. now rewrite Eab.
    + now rewrite (string_compare_lt_trans a b c Eab Ebc).
Qed.

Lemma byName_antisym (a b : string) : byName a b -> byName b a -> a = b.
Proof. apply String.leb_antisym. Qed.

Lemma byName_total (a b : string) : byName a b \/ byName b a.
Proof. apply String.leb_total. Qed.

Lemma not_byName (a b : string) : String.leb a b = false -> byName b a.
Proof.
  intros H. destruct (byName_total a b) as [H'|H']; [|exact H'].
  unfold byName in H'. congruence.
Qed.

Lemma ltb_leb_false (a b : string) : String.ltb a b = true -> String.leb b a = false.
Proof.
  unfold String.ltb, String.leb. rewrite (String.compare_antisym b a).
  destruct (String.compare a b); simpl; congruence.
Qed.

End StringOrder.

(** ** [sort.Strings] *)

Section SortStrings.

Lemma insert_perm (x : string) (l : list string) :
  Permutation (x :: l) (sort.insert x l).
Proof.
  induction l as [|y l IH]; simpl; [reflexivity|].
  destruct (String.leb x y); [reflexivity|].
  rewrite perm_swap. now constructor.
Qed.

Lemma Strings_perm (l : list string) : Permutation l (sort.Strings l).
Proof.
  induction l as [|x l IH]; simpl; [constructor|].
  rewrite <- insert_perm. now constructor.
Qed.

Lemma insert_sorted (x : string) (l : list string) :
  StronglySorted byName l -> StronglySorted byName (sort.insert x l).
Proof.
  induction 1 as [|y l Hl IH Hy]; simpl.
  - repeat constructor.
  - destruct (String.leb x y) eqn:E.
    + constructor; [now constructor|].
      constructor; [exact E|].
      eapply Forall_impl; [|exact Hy].
      intros z Hz. eapply byName_trans; [exact E|exact Hz].
    + constructor; [exact IH|].
      eapply Permutation_Forall; [apply insert_perm|].
      constructor; [now apply not_byName|exact Hy].
Qed.

Lemma Strings_sorted (l : list string) : StronglySorted byName (sort.Strings l).
Proof.
  induction l as [|x l IH]; simpl; [constructor|now apply insert_sorted].
Qed.

(** Two increasing arrangements of the same strings are the same slice. *)
Lemma sorted_perm_unique (l1 : list string) :
  forall l2, StronglySorted byName l1 -> StronglySorted byName l2 ->
             Permutation l1 l2 -> l1 = l2.
Proof.
  induction l1 as [|a l1 IH]; intros l2 S1 S2 P.
  - now apply Permutation_nil in P.
  - destruct l2 as [|b l2]; [now apply Permutation_sym, Permutation_nil in P|].
    apply StronglySorted_inv in S1 as [S1 F1].
    apply StronglySorted_inv in S2 as [S2 F2].
    assert (a = b) as ->.
    { apply byName_antisym.
      - assert (In b (a :: l1)) as [->|Hb]
            by (eapply Permutation_in; [symmetry; exact P|now left]).
        + apply byName_refl.
        + rewrite Forall_forall in F1. now apply F1.
      - assert (In a (b :: l2)) as [->|Ha]
            by (eapply Permutation_in; [exact P|now left]).
        + apply byName_refl.
        + rewrite Forall_forall in F2. now apply F2. }
    f_equal. apply IH; try assumption.
    now apply Permutation_cons_inv in P.
Qed.

Lemma Strings_unique (l sorted : list string) :
  Permutation l sorted -> StronglySorted byName sorted -> sort.Strings l = sorted.
Proof.
  intros P S. apply sorted_perm_unique; [apply Strings_sorted|exact S|].
  now rewrite <- Strings_perm.
Qed.

Lemma Strings_nil_inv (l : list string) : sort.Strings l = [] -> l = [].
Proof.
  intros H. apply Permutation_nil. rewrite <- H. symmetry. apply Strings_perm.
Qed.


End SortStrings.

(** ** Byte order against sequence numbers *)

Section SequenceNumbers.








End SequenceNumbers.

(** ** Slices and [sort.SearchStrings] *)

Section Search.

Lemma index_nth_error {A : Type} (l : list A) (i : Z) (x : A) :
  index l i = Some x <-> 0 <= i /\ nth_error l (Z.to_nat i) = Some x.
Proof.
  unfold index. destruct (Z.ltb_spec i 0) as [H|H].
  - split; [discriminate|intros [H' _]; lia].
  - split; [intros E; split; [lia|exact E]|intros [_ E]; exact E].
Qed.

Lemma index_in_range {A : Type} (l : list A) (i : Z) :
  0 <= i < len l -> exists x, index l i = Some x.
Proof.
  intros H. unfold len in H.
  destruct (nth_error l (Z.to_nat i)) eqn:E.
  - exists a. apply index_nth_error. split; [lia|exact E].
  - apply nth_error_None in E. lia.
Qed.

Lemma index_Some_range {A : Type} (l : list A) (i : Z) (x : A) :
  index l i = Some x -> 0 <= i < len l.
Proof.
  intros H. apply index_nth_error in H as [H0 H].
  assert (Z.to_nat i < List.length l)%nat
    by (apply nth_error_Some; congruence).
  unfold len. lia.
Qed.

Lemma index_In {A : Type} (l : list A) (i : Z) (x : A) :
  index l i = Some x -> In x l.
Proof. intros H. apply index_nth_error in H as [_ H]. eapply nth_error_In, H. Qed.

Lemma index_hd {A : Type} (l : list A) : index l 0 = hd_error l.
Proof. now destruct l. Qed.

Lemma sorted_nth_error (l : list string) :
  StronglySorted byName l ->
  forall i j a b, (i <= j)%nat ->
    nth_error l i = Some a -> nth_error l j = Some b -> byName a b.
Proof.
  induction 1 as [|x l S IH F]; intros i j a b Hij Ha Hb.
  - now destruct i.
  - destruct i as [|i], j as [|j]; simpl in Ha, Hb; try lia.
    + injection Ha as <-. injection Hb as <-. apply byName_refl.
    + injection Ha as <-. rewrite Forall_forall in F.
      eapply F, nth_error_In, Hb.
    + eapply IH; [|exact Ha|exact Hb]. lia.
Qed.

Lemma sorted_index (l : list string) (i j : Z) (a b : string) :
  StronglySorted byName l -> i <= j ->
  index l i = Some a -> index l j = Some b -> byName a b.
Proof.
  intros S Hij Ha Hb.
  apply index_nth_error in Ha as [Hi Ha], Hb as [Hj Hb].
  eapply sorted_nth_error; [exact S| |exact Ha|exact Hb]. lia.
Qed.

Variable n : Z.
Variable f : Z -> bool.
Hypothesis f_monotone :
  forall k k', 0 <= k <= k' -> k' < n -> f k = true -> f k' = true.

(** The loop keeps [f] false below [i] and true from [j] on, and ends
    at the point where [f] turns true. *)
Lemma SearchLoop_spec (fuel : nat) :
  forall i j,
    0 <= i <= j -> j <= n -> j - i <= Z.of_nat fuel ->
    (forall k, 0 <= k < i -> f k = false) ->
    (forall k, j <= k < n -> f k = true) ->
    let r := sort.SearchLoop fuel f i j in
    i <= r <= j /\
    (forall k, 0 <= k < r -> f k = false) /\
    (forall k, r <= k < n -> f k = true).
Proof.
  induction fuel as [|fuel IH]; intros i j Hij Hjn Hfuel Hlo Hhi; cbn [sort.SearchLoop].
  - assert (i = j) by lia. subst j. repeat split; auto; lia.
  - destruct (Z.ltb_spec i j) as [Hlt|Hge].
    + rewrite Z.shiftr_div_pow2 by lia. change (2 ^ 1) with 2.
      set (h := (i + j) / 2).
      assert (Hh : i <= h < j).
      { subst h. split.
        - apply Z.div_le_lower_bound; lia.
        - apply Z.div_lt_upper_bound; lia. }
      destruct (f h) eqn:Fh; cbn [negb].
      * assert (Hhi' : forall k, h <= k < n -> f k = true).
        { intros k Hk. apply (f_monotone h k); [lia|lia|exact Fh]. }
        destruct (IH i h ltac:(lia) ltac:(lia) ltac:(lia) Hlo Hhi') as (R1 & R2 & R3).
        split; [lia|]. split; assumption.
      * assert (Hlo' : forall k, 0 <= k < h + 1 -> f k = false).
        { intros k Hk. destruct (f k) eqn:Fk; [|reflexivity].
          assert (f h = true) by (apply (f_monotone k h); [lia|lia|exact Fk]).
          congruence. }
        destruct (IH (h + 1) j ltac:(lia) ltac:(lia) ltac:(lia) Hlo' Hhi) as (R1 & R2 & R3).
        split; [lia|]. split; assumption.
    + assert (i = j) by lia. subst j. repeat split; auto; lia.
Qed.

End Search.

Section SearchStrings.

Variable a : list string.
Variable x : string.
Hypothesis a_sorted : StronglySorted byName a.

Lemma SearchStrings_spec :
  let r := sort.SearchStrings a x in
  0 <= r <= len a /\
  (forall k s, 0 <= k < r -> index a k = Some s -> String.leb x s = false) /\
  (forall k s, r <= k -> index a k = Some s -> String.leb x s = true).
Proof.
  unfold sort.SearchStrings, sort.Search.
  set (f := fun i => match index a i with Some s => String.leb x s | None => false end).
  destruct (SearchLoop_spec (len a) f) with (fuel := Z.to_nat (len a)) (i := 0) (j := len a)
    as (R1 & R2 & R3); try (unfold len; lia).
  - intros k k' Hk Hk'. unfold f.
    destruct (index_in_range a k) as [s Hs]; [lia|].
    destruct (index_in_range a k') as [s' Hs']; [lia|].
    rewrite Hs, Hs'. intros Hx.
    eapply byName_trans; [exact Hx|].
    eapply sorted_index; [exact a_sorted| |exact Hs|exact Hs']. lia.
  - repeat split; try lia.
    + intros k s Hk Hs. specialize (R2 k Hk). unfold f in R2. now rewrite Hs in R2.
    + intros k s Hk Hs. pose proof (index_Some_range a k s Hs).
      specialize (R3 k ltac:(lia)). unfold f in R3. now rewrite Hs in R3.
Qed.

(** A name that sorts before every entry is searched to index 0. *)
Lemma SearchStrings_front (first : string) :
  index a 0 = Some first -> String.leb x first = true ->
  sort.SearchStrings a x = 0.
Proof.
  intros H0 Hle. destruct SearchStrings_spec as (R1 & R2 & _).
  destruct (Z.eq_dec (sort.SearchStrings a x) 0) as [E|E]; [exact E|].
  rewrite (R2 0 first) in Hle; [discriminate|lia|exact H0].
Qed.

(** A name that is in the slice is found at its place. *)
Lemma SearchStrings_found :
  In x a -> index a (sort.SearchStrings a x) = Some x.
Proof.
  intros Hin. destruct SearchStrings_spec as (R1 & R2 & R3).
  apply In_nth_error in Hin as [p Hp].
  assert (Hp' : index a (Z.of_nat p) = Some x)
    by (apply index_nth_error; rewrite Nat2Z.id; split; [lia|exact Hp]).
  assert (Hr : sort.SearchStrings a x <= Z.of_nat p).
  { destruct (Z.le_gt_cases (sort.SearchStrings a x) (Z.of_nat p)) as [H|H]; [exact H|].
    pose proof (R2 (Z.of_nat p) x ltac:(lia) Hp') as Hfalse.
    pose proof (byName_refl x) as Hx. unfold byName in Hx. congruence. }
  pose proof (index_Some_range a _ _ Hp') as Hrange.
  destruct (index_in_range a (sort.SearchStrings a x)) as [s Hs]; [lia|].
  rewrite Hs. f_equal. apply byName_antisym.
  - eapply sorted_index; [exact a_sorted|exact Hr|exact Hs|exact Hp'].
  - apply (R3 (sort.SearchStrings a x) s); [lia|exact Hs].
Qed.

(** When the name is in the slice and is not its first entry, the entry
    to its left exists and is strictly smaller. *)
Lemma SearchStrings_predecessor (first : string) :
  In x a -> index a 0 = Some first -> first <> x ->
  1 <= sort.SearchStrings a x /\
  exists predecessor,
    index a (sort.SearchStrings a x - 1) = Some predecessor /\
    String.leb x predecessor = false.
Proof.
  intros Hin H0 Hne. pose proof (SearchStrings_found Hin) as Hf.
  destruct SearchStrings_spec as (R1 & R2 & R3).
  assert (sort.SearchStrings a x <> 0) by (intros E; rewrite E in Hf; congruence).
  pose proof (index_Some_range a _ _ Hf).
  split; [lia|].
  destruct (index_in_range a (sort.SearchStrings a x - 1)) as [s Hs]; [lia|].
  exists s. split; [exact Hs|]. apply (R2 (sort.SearchStrings a x - 1)); [lia|exact Hs].
Qed.

End SearchStrings.

(** ** Runs of the two loops *)

Section Runs.

Lemma lastEvent_cons (e : event) (log : list event) :
  log <> [] -> lastEvent (e :: log) = lastEvent log.
Proof. now destruct log. Qed.

Lemma lastEvent_Some_nonempty (log : list event) (e : event) :
  lastEvent log = Some e -> log <> [].
Proof. now destruct log. Qed.

Lemma nonempty_slice (l : list string) :
  (len l =? 0) = false -> exists first, index l 0 = Some first.
Proof.
  intros H. apply Z.eqb_neq in H. apply index_in_range.
  unfold len in *. lia.
Qed.

(** One turn of the outer loop, on the answer of [Children]. *)
Lemma run_lockLoop (fuel : nat) (g : GlobalLock) (r : reply) (rest : list reply) :
  run (lockLoop (S fuel) g) (r :: rest) =
  match r with
  | RChildren (children, st, cerr) =>
      let sorted := sort.Strings children in
      let own := path.Base (ephemeralPath g) in
      let (log, o) :=
        run (if len sorted =? 0 then
               Return (g, Some (fmt.Errorf msgNoChildren (ephemeralPath g)))
             else
               match index sorted 0 with
               | None => Panic "index out of range"
               | Some first =>
                   if String.eqb first own then Return (set_locked g true, None)
                   else watchLoop fuel g sorted (sort.SearchStrings sorted own)
               end) rest in
      (Ev (Children (conn g) (root g)) (children, st, cerr) :: log, o)
  | _ => ([], Unexpected)
  end.
Proof. destruct r as [?|[[? ?] ?]|?| |?]; reflexivity. Qed.

(** One turn of the inner loop, on the answer of [ExistsW]. *)
Lemma run_watchLoop (fuel : nat) (g : GlobalLock) (children : list string)
      (myIndex : Z) (predecessor : string) (r : reply) (rest : list reply) :
  index children (myIndex - 1) = Some predecessor ->
  run (watchLoop (S fuel) g children myIndex) (r :: rest) =
  match r with
  | RExistsW (stat, w, err) =>
      let (log, o) :=
        run (match err with
             | Some e => Return (g, Some e)
             | None =>
                 match stat with
                 | None => lockLoop fuel g
                 | Some _ => Call (Recv w) (fun _ => watchLoop fuel g children myIndex)
                 end
             end) rest in
      (Ev (ExistsW (conn g) (root g ++ "/" ++ predecessor)%string) (stat, w, err) :: log, o)
  | _ => ([], Unexpected)
  end.
Proof.
  intros H. cbn [watchLoop]. rewrite H.
  destruct r as [?|?|[[[?|] ?] [?|]]| |?]; reflexivity.
Qed.

Lemma run_watchLoop_panic (fuel : nat) (g : GlobalLock) (children : list string)
      (myIndex : Z) (script : list reply) :
  index children (myIndex - 1) = None ->
  run (watchLoop (S fuel) g children myIndex) script = ([], Panicked "index out of range").
Proof. intros H. cbn [watchLoop]. now rewrite H. Qed.

Lemma run_Recv {R : Type} (w : Watch) (k : unit -> zk R) (r : reply) (rest : list reply) :
  run (Call (Recv w) k) (r :: rest) =
  match r with
  | RRecv => let (log, o) := run (k tt) rest in (Ev (Recv w) tt :: log, o)
  | _ => ([], Unexpected)
  end.
Proof. destruct r; reflexivity. Qed.

Lemma run_blocked {R A : Type} (c : zkCall A) (k : A -> zk R) :
  run (Call c k) [] = ([], Blocked).
Proof. reflexivity. Qed.

Lemma lockLoop_blocked (fuel : nat) (g : GlobalLock) :
  run (lockLoop (S fuel) g) [] = ([], Blocked).
Proof. reflexivity. Qed.

End Runs.

(** ** How [Lock] comes to hold the lock *)

Tactic Notation "split_run" hyp(H) "as" ident(log) ident(E) :=
  match type of H with
  | (let (_, _) := ?t in _) = _ =>
      let o := fresh "o" in
      destruct t as [log o] eqn:E;
      injection H as <- ->
  end.

Tactic Notation "split_run" hyp(H) :=
  let log := fresh "log" in
  let E := fresh "E" in
  split_run H as log E.

Section Granting.

Lemma loops_grant (fuel : nat) :
  (forall g script log r,
      run (lockLoop fuel g) script = (log, Returned r) ->
      locked g = false -> locked (fst r) = true ->
      grantedAtMinimum g log r) /\
  (forall g children myIndex script log r,
      run (watchLoop fuel g children myIndex) script = (log, Returned r) ->
      locked g = false -> locked (fst r) = true ->
      log <> [] /\ grantedAtMinimum g log r).
Proof.
  induction fuel as [|fuel [IHlock IHwatch]]; split.
  - intros g script log r H. discriminate H.
  - intros g children myIndex script log r H. discriminate H.
  - intros g [|a rest] log r H Hg Hr; [discriminate H|].
    rewrite run_lockLoop in H.
    destruct a as [?|[[children st] cerr]|?| |?]; try discriminate H.
    cbv zeta in H.
    destruct (len (sort.Strings children) =? 0) eqn:Elen.
    { cbn in H. injection H as <- <-. cbn in Hr. congruence. }
    destruct (nonempty_slice _ Elen) as [first Hfirst]. rewrite Hfirst in H.
    destruct (String.eqb first (path.Base (ephemeralPath g))) eqn:Eown.
    + cbn in H. injection H as <- <-.
      apply String.eqb_eq in Eown. subst first.
      split; [reflexivity|].
      eexists; exists children. split; [reflexivity|]. split; [reflexivity|].
      now rewrite <- index_hd.
    + split_run H.
      destruct (IHwatch _ _ _ _ _ _ E Hg Hr) as [Hne (Hres & e & cs & Hlast & Hcs & Hmin)].
      split; [exact Hres|].
      exists e, cs. rewrite lastEvent_cons by exact Hne. auto.
  - intros g children myIndex [|a rest] log r H Hg Hr.
    { cbn [watchLoop] in H. destruct (index children (myIndex - 1)); discriminate H. }
    destruct (index children (myIndex - 1)) as [predecessor|] eqn:Epred.
    2:{ rewrite run_watchLoop_panic in H by exact Epred. discriminate H. }
    rewrite (run_watchLoop _ _ _ _ predecessor) in H by exact Epred.
    destruct a as [?|?|[[stat w] err]| |?]; try discriminate H.
    split; [split_run H; discriminate|].
    destruct err as [e|].
    { cbn in H. injection H as <- <-. cbn in Hr. congruence. }
    destruct stat as [st|].
    + destruct rest as [|b rest]; [discriminate H|].
      rewrite run_Recv in H.
      destruct b; try discriminate H.
      split_run H. split_run E.
      destruct (IHwatch _ _ _ _ _ _ E0 Hg Hr) as [Hne (Hres & e & cs & Hlast & Hcs & Hmin)].
      split; [exact Hres|].
      exists e, cs. rewrite !lastEvent_cons by (try exact Hne; discriminate). auto.
    + split_run H.
      destruct (IHlock _ _ _ _ E Hg Hr) as (Hres & e & cs & Hlast & Hcs & Hmin).
      split; [exact Hres|].
      exists e, cs. rewrite lastEvent_cons by (eapply lastEvent_Some_nonempty, Hlast). auto.
Qed.

End Granting.

(** ** The two messages of [Lock] *)

Section Messages.

Lemma string_length_append (a b : string) :
  String.length (a ++ b) = (String.length a + String.length b)%nat.
Proof. induction a as [|c a IH]; simpl; [reflexivity|now rewrite IH]. Qed.

Lemma string_append_assoc (a b c : string) :
  ((a ++ b) ++ c = a ++ (b ++ c))%string.
Proof. induction a as [|x a IH]; simpl; [reflexivity|now rewrite IH]. Qed.

(** Strings that agree as a whole agree on tails of one length. *)
Lemma append_tail_inj (a : string) :
  forall b s t, String.length s = String.length t ->
                (a ++ s = b ++ t)%string -> s = t.
Proof.
  induction a as [|x a IH]; intros [|y b] s t L E; simpl in E.
  - exact E.
  - apply (f_equal String.length) in E. simpl in E.
    rewrite string_length_append in E. lia.
  - apply (f_equal String.length) in E. simpl in E.
    rewrite string_length_append in E. lia.
  - injection E as _ E. eapply IH; eassumption.
Qed.

Lemma Sprintf_msgNotObtained (p : string) :
  fmt.Sprintf msgNotObtained p
  = (("Lock in unknown state. Ephemeral path " ++ p ++ " exists but lock not ")
       ++ "obtained.")%string.
Proof. rewrite !string_append_assoc. reflexivity. Qed.

Lemma Sprintf_msgNoChildren (p : string) :
  fmt.Sprintf msgNoChildren p
  = (("Lock in unknown state. Ephemeral path " ++ p ++ " exists but there are no ")
       ++ "children.")%string.
Proof. rewrite !string_append_assoc. reflexivity. Qed.

(** The error of the unknown-state check is not the error of the empty
    listing, whatever the paths they quote. *)
Lemma notObtained_is_not_noChildren (p p' : string) :
  fmt.Errorf msgNotObtained p <> fmt.Errorf msgNoChildren p'.
Proof.
  unfold fmt.Errorf. intros E0.
  assert (E : fmt.Sprintf msgNotObtained p = fmt.Sprintf msgNoChildren p')
    by congruence.
  rewrite Sprintf_msgNotObtained, Sprintf_msgNoChildren in E.
  apply append_tail_inj in E; [discriminate E|reflexivity].
Qed.

Lemma nonempty_path (p : string) :
  p <> ""%string <-> (0 <? Z.of_nat (String.length p)) = true.
Proof.
  destruct p; simpl; split; try congruence; try easy.
Qed.

End Messages.

(** ** Entering [Lock] *)

Section Entry.

(** The first call of [Lock] on a handle with no node of its own. *)
Lemma run_Lock_create (fuel : nat) (g : GlobalLock) (r : reply) (rest : list reply) :
  locked g = false -> ephemeralPath g = ""%string ->
  run (Lock fuel g) (r :: rest) =
  match r with
  | RCreate (created, err) =>
      let (log, o) :=
        run (match err with
             | Some e => Return (set_ephemeralPath g created, Some e)
             | None => lockLoop fuel (set_ephemeralPath g created)
             end) rest in
      (Ev (Create (conn g) (root g ++ "/")%string "" (Z.lor EPHEMERAL SEQUENCE)
                  (WorldACL PERM_ALL))
          (created, err) :: log, o)
  | _ => ([], Unexpected)
  end.
Proof.
  intros Hl He. unfold Lock. rewrite Hl, He. cbn [String.length Z.of_nat Z.ltb Z.compare].
  destruct r as [[created [e|]]|?|?| |?]; reflexivity.
Qed.

(** With a node path and without the lock, [Lock] stops at its second
    test. *)
Lemma Lock_with_stale_path (fuel : nat) (g : GlobalLock) :
  locked g = false -> ephemeralPath g <> ""%string ->
  Lock fuel g = Return (g, Some (fmt.Errorf msgNotObtained (ephemeralPath g))).
Proof.
  intros Hl Hp. unfold Lock. rewrite Hl. apply nonempty_path in Hp. now rewrite Hp.
Qed.

(** A turn of the outer loop on an empty listing. *)
Lemma lockLoop_empty_turn (fuel : nat) (g : GlobalLock) st cerr (rest : list reply) :
  run (lockLoop (S fuel) g) (RChildren ([], st, cerr) :: rest)
  = ([Ev (Children (conn g) (root g)) ([], st, cerr)],
     Returned (g, Some (fmt.Errorf msgNoChildren (ephemeralPath g)))).
Proof. now rewrite run_lockLoop. Qed.

(** A turn of the outer loop on a listing whose least name is the own. *)
Lemma lockLoop_granting_turn (fuel : nat) (g : GlobalLock) children st cerr
      (rest : list reply) :
  hd_error (sort.Strings children) = Some (path.Base (ephemeralPath g)) ->
  run (lockLoop (S fuel) g) (RChildren (children, st, cerr) :: rest)
  = ([Ev (Children (conn g) (root g)) (children, st, cerr)],
     Returned (set_locked g true, None)).
Proof.
  intros Hmin. rewrite run_lockLoop. cbv zeta. rewrite index_hd, Hmin.
  destruct (len (sort.Strings children) =? 0) eqn:Elen.
  - apply Z.eqb_eq in Elen. destruct (sort.Strings children); discriminate.
  - now rewrite String.eqb_refl.
Qed.

End Entry.

(** * The claims *)

(** ** Early returns of [Lock] *)

(** C10.  A handle that already holds the lock: [Lock] is [return nil] and
    nothing else.  The computation is a bare [Return], so no call reaches
    the client whatever the client would answer, and the handle comes back
    with its session, root, node path and flag as they were. *)
Theorem Lock_held_returns_at_once :
  forall (fuel : nat) (g : GlobalLock),
    locked g = true ->
    Lock fuel g = Return (g, None) /\
    forall script, run (Lock fuel g) script = ([], Returned (g, None)).
Proof.
  intros fuel g H. unfold Lock. rewrite H. split; [reflexivity|].
  intros script. reflexivity.
Qed.

Lemma Lock_held_returns_at_once_witness :
  locked heldHandle = true /\
  run (Lock 5 heldHandle) [RCreate ("/lock/0000000002"%string, None)]
  = ([], Returned (heldHandle, None)).
Proof.
  split; [reflexivity|].
  apply (proj2 (Lock_held_returns_at_once 5 heldHandle eq_refl)).
Defined.

(** C6.  A handle that does not hold the lock but still carries a node
    path: [Lock] returns the "lock not obtained" error built by
    [fmt.Errorf].  No call reaches the client (no second [Create]), the
    handle is unchanged, and the error is neither the error of the empty
    listing nor an error of the client. *)
Theorem Lock_unknown_state_rejected :
  forall (fuel : nat) (g : GlobalLock),
    locked g = false -> ephemeralPath g <> ""%string ->
    let err := fmt.Errorf msgNotObtained (ephemeralPath g) in
    Lock fuel g = Return (g, Some err) /\
    (forall script, run (Lock fuel g) script = ([], Returned (g, Some err))) /\
    (forall p, err <> fmt.Errorf msgNoChildren p) /\
    isClientError err = false.
Proof.
  intros fuel g Hl Hp err.
  assert (E : Lock fuel g = Return (g, Some err))
    by now apply Lock_with_stale_path.
  split; [exact E|]. split; [|split].
  - intros script. now rewrite E.
  - intros p. apply notObtained_is_not_noChildren.
  - reflexivity.
Qed.

Lemma Lock_unknown_state_rejected_witness :
  (locked queuedHandle = false /\ ephemeralPath queuedHandle <> ""%string) /\
  run (Lock 5 queuedHandle) [RCreate ("/lock/0000000002"%string, None)]
  = ([], Returned (queuedHandle, Some (ErrorString
       "Lock in unknown state. Ephemeral path /lock/0000000001 exists but lock not obtained."))).
Proof.
  split; [split; [reflexivity|discriminate]|].
  apply (proj1 (proj2 (Lock_unknown_state_rejected 5 queuedHandle eq_refl
                         ltac:(discriminate)))).
Defined.

(** ** [Unlock] *)

(** C8.  [Unlock] makes one call, [Delete] of the handle's node path with
    version [-1].  On a [nil] answer the node path is emptied and the flag
    cleared; on an error the handle is returned as it was, together with
    that error. *)
Theorem Unlock_deletes_by_path :
  forall (g : GlobalLock) (answer : option error) (rest : list reply),
    run (Unlock g) (RDelete answer :: rest)
    = ([Ev (Delete (conn g) (ephemeralPath g) (-1)) answer],
       Returned
         match answer with
         | None => ({| Session := Session g; root := root g;
                       ephemeralPath := ""; locked := false |}, None)
         | Some e => (g, Some e)
         end).
Proof. intros g [e|] rest; reflexivity. Qed.

(** ** The empty listing *)

Ltac no_last_event H Hlast :=
  injection H as <- <-; discriminate Hlast.

Section EmptyListing.

Lemma listing_nonempty_sorted (children : list string) :
  (len (sort.Strings children) =? 0) = false -> children <> [].
Proof. intros H ->. discriminate H. Qed.

(** A run of either loop whose last answered call is an empty listing
    ends in the "no children" error, the handle as it was. *)
Lemma loops_empty_listing (fuel : nat) :
  (forall g script log o e,
      run (lockLoop fuel g) script = (log, o) ->
      lastEvent log = Some e -> listing e = Some [] ->
      o = Returned (g, Some (fmt.Errorf msgNoChildren (ephemeralPath g)))) /\
  (forall g children myIndex script log o e,
      run (watchLoop fuel g children myIndex) script = (log, o) ->
      lastEvent log = Some e -> listing e = Some [] ->
      o = Returned (g, Some (fmt.Errorf msgNoChildren (ephemeralPath g)))).
Proof.
  induction fuel as [|fuel [IHlock IHwatch]]; split.
  - intros g script log o e H Hlast. no_last_event H Hlast.
  - intros g children myIndex script log o e H Hlast. no_last_event H Hlast.
  - intros g [|a rest] log o e H Hlast Hempty; [no_last_event H Hlast|].
    rewrite run_lockLoop in H.
    destruct a as [?|[[children st] cerr]|?| |?]; try (no_last_event H Hlast).
    cbv zeta in H.
    destruct (len (sort.Strings children) =? 0) eqn:Elen.
    { cbn in H. now injection H as <- <-. }
    pose proof (listing_nonempty_sorted _ Elen) as Hne.
    destruct (nonempty_slice _ Elen) as [first Hfirst]. rewrite Hfirst in H.
    destruct (String.eqb first (path.Base (ephemeralPath g))).
    + cbn in H. injection H as <- <-. cbn in Hlast. injection Hlast as <-.
      cbn in Hempty. congruence.
    + split_run H as tl E. destruct tl as [|e' tl].
      * cbn in Hlast. injection Hlast as <-. cbn in Hempty. congruence.
      * rewrite lastEvent_cons in Hlast by discriminate. eauto.
  - intros g children myIndex [|a rest] log o e H Hlast Hempty.
    { cbn [watchLoop] in H. destruct (index children (myIndex - 1));
        no_last_event H Hlast. }
    destruct (index children (myIndex - 1)) as [predecessor|] eqn:Epred.
    2:{ rewrite run_watchLoop_panic in H by exact Epred. no_last_event H Hlast. }
    rewrite (run_watchLoop _ _ _ _ predecessor) in H by exact Epred.
    destruct a as [?|?|[[stat w] err]| |?]; try (no_last_event H Hlast).
    destruct err as [err|].
    { cbn in H. injection H as <- <-. cbn in Hlast. injection Hlast as <-.
      discriminate Hempty. }
    destruct stat as [st|].
    + destruct rest as [|b rest].
      { cbn in H. injection H as <- <-. cbn in Hlast. injection Hlast as <-.
        discriminate Hempty. }
      rewrite run_Recv in H.
      destruct b;
        try (injection H as <- <-; cbn in Hlast; injection Hlast as <-;
             discriminate Hempty).
      split_run H as tl E. split_run E as tl' E'. destruct tl' as [|e' tl'].
      * cbn in Hlast. injection Hlast as <-. discriminate Hempty.
      * rewrite !lastEvent_cons in Hlast by discriminate. eauto.
    + split_run H as tl E. destruct tl as [|e' tl].
      * cbn in Hlast. injection Hlast as <-. discriminate Hempty.
      * rewrite lastEvent_cons in Hlast by discriminate. eauto.
Qed.

End EmptyListing.

(** C7.  An empty listing ends [Lock] with the "no children" error: in
    any turn of the outer loop (first part), and so in every run of [Lock]
    from a handle that does not hold the lock whose last answered call is
    an empty listing (second part).  The flag stays [false], and no turn
    of fuel is needed beyond the one that makes the call. *)
Theorem Lock_empty_listing_fails :
  (forall (fuel : nat) (g : GlobalLock) st cerr (rest : list reply),
      run (lockLoop (S fuel) g) (RChildren ([], st, cerr) :: rest)
      = ([Ev (Children (conn g) (root g)) ([], st, cerr)],
         Returned (g, Some (fmt.Errorf msgNoChildren (ephemeralPath g))))) /\
  (forall (fuel : nat) (g : GlobalLock) script log o e,
      locked g = false ->
      run (Lock fuel g) script = (log, o) ->
      lastEvent log = Some e -> listing e = Some [] ->
      exists g',
        o = Returned (g', Some (fmt.Errorf msgNoChildren (ephemeralPath g'))) /\
        locked g' = false /\
        forall p, fmt.Errorf msgNoChildren (ephemeralPath g') <> fmt.Errorf msgNotObtained p).
Proof.
  split.
  - intros fuel g st cerr rest. apply lockLoop_empty_turn.
  - intros fuel g script log o e Hl H Hlast Hempty.
    destruct (String.eqb_spec (ephemeralPath g) "") as [Hp|Hp].
    2:{ rewrite (Lock_with_stale_path fuel g Hl Hp) in H. no_last_event H Hlast. }
    destruct script as [|a rest].
    { unfold Lock in H. rewrite Hl, Hp in H. no_last_event H Hlast. }
    rewrite run_Lock_create in H by assumption.
    destruct a as [[created [err|]]|?|?| |?]; try (no_last_event H Hlast).
    + cbn in H. injection H as <- <-. cbn in Hlast. injection Hlast as <-.
      discriminate Hempty.
    + split_run H as tl E. destruct tl as [|e' tl].
      * cbn in Hlast. injection Hlast as <-. discriminate Hempty.
      * rewrite lastEvent_cons in Hlast by discriminate.
        exists (set_ephemeralPath g created).
        split; [|split].
        -- eapply (proj1 (loops_empty_listing fuel)); eassumption.
        -- exact Hl.
        -- intros p E'. symmetry in E'. revert E'. apply notObtained_is_not_noChildren.
Qed.

Lemma Lock_empty_listing_fails_witness :
  run (Lock 1 freshHandle)
      [RCreate ("/lock/0000000001"%string, None); RChildren ([], None, None)]
  = ([Ev (Create 7%nat "/lock/" "" 3 (WorldACL PERM_ALL)) ("/lock/0000000001"%string, None);
      Ev (Children 7%nat "/lock") ([], None, None)],
     Returned (queuedHandle, Some (ErrorString
       "Lock in unknown state. Ephemeral path /lock/0000000001 exists but there are no children.")))
  /\ exists g',
      Returned (queuedHandle, Some (ErrorString
       "Lock in unknown state. Ephemeral path /lock/0000000001 exists but there are no children."))
      = Returned (g', Some (fmt.Errorf msgNoChildren (ephemeralPath g'))) /\
      locked g' = false.
Proof.
  split; [reflexivity|].
  destruct (proj2 Lock_empty_listing_fails 1%nat freshHandle
              [RCreate ("/lock/0000000001"%string, None); RChildren ([], None, None)]
              _ _ (Ev (Children 7%nat "/lock") ([], None, None))
              eq_refl eq_refl eq_refl eq_refl) as (g' & E & Hl & _).
  exists g'. split; [exact E|exact Hl].
Defined.

(** ** Taking the lock *)

(** C5.  Three facts about the test [children[0] == path.Base(g.ephemeralPath)].
    (1) In any turn of the outer loop where the least name of the listing
    is the handle's own, [Lock] sets the flag and returns [nil]; the only
    call of that turn is the listing, so no watch is registered.
    (2) Every run of [Lock] that starts without the lock and returns with
    the flag set returns [nil], and its last call is such a listing: no
    other exit sets the flag.
    (3) A contender that finds its node the only child makes two calls,
    [Create] and [Children], and none of them is a watch. *)
Theorem Lock_granted_only_at_minimum :
  (forall (fuel : nat) (g : GlobalLock) children st cerr (rest : list reply),
      hd_error (sort.Strings children) = Some (path.Base (ephemeralPath g)) ->
      run (lockLoop (S fuel) g) (RChildren (children, st, cerr) :: rest)
      = ([Ev (Children (conn g) (root g)) (children, st, cerr)],
         Returned (set_locked g true, None))) /\
  (forall (fuel : nat) (g : GlobalLock) script log r,
      locked g = false ->
      run (Lock fuel g) script = (log, Returned r) ->
      locked (fst r) = true ->
      snd r = None /\
      exists e children,
        lastEvent log = Some e /\ listing e = Some children /\
        hd_error (sort.Strings children) = Some (path.Base (ephemeralPath (fst r)))) /\
  (forall (fuel : nat) (session : ZkSession) (rootPath created : string) st cerr
          (rest : list reply),
      let g := NewGlobalLock session rootPath in
      exists log,
        run (Lock (S fuel) g)
            (RCreate (created, None) :: RChildren ([path.Base created], st, cerr) :: rest)
        = (log, Returned ({| Session := session; root := rootPath;
                             ephemeralPath := created; locked := true |}, None)) /\
        List.length log = 2%nat /\ existsb isWatch log = false).
Proof.
  split; [intros; now apply lockLoop_granting_turn|]. split.
  - intros fuel g script log r Hl H Hr.
    destruct (String.eqb_spec (ephemeralPath g) "") as [Hp|Hp].
    2:{ rewrite (Lock_with_stale_path fuel g Hl Hp) in H.
        injection H as <- <-. cbn in Hr. congruence. }
    destruct script as [|a rest].
    { unfold Lock in H. rewrite Hl, Hp in H. discriminate H. }
    rewrite run_Lock_create in H by assumption.
    destruct a as [[created [err|]]|?|?| |?]; try discriminate H.
    + cbn in H. injection H as <- <-. cbn in Hr. congruence.
    + split_run H as tl E.
      destruct (proj1 (loops_grant fuel) (set_ephemeralPath g created) rest tl r E Hl Hr)
        as (-> & e & cs & Hlast & Hcs & Hmin).
      split; [reflexivity|].
      exists e, cs. rewrite lastEvent_cons by (eapply lastEvent_Some_nonempty, Hlast).
      auto.
  - intros fuel session rootPath created st cerr rest g.
    eexists. split.
    + rewrite run_Lock_create by reflexivity. cbv beta iota.
      rewrite lockLoop_granting_turn by reflexivity. reflexivity.
    + split; reflexivity.
Qed.

Lemma Lock_granted_only_at_minimum_witness :
  hd_error (sort.Strings ["0000000003"; "0000000001"]%string)
  = Some (path.Base (ephemeralPath queuedHandle)) /\
  run (lockLoop 1 queuedHandle)
      [RChildren (["0000000003"; "0000000001"]%string, None, None)]
  = ([Ev (Children 7%nat "/lock") (["0000000003"; "0000000001"]%string, None, None)],
     Returned (heldHandle, None)).
Proof.
  split; [reflexivity|].
  apply (proj1 Lock_granted_only_at_minimum 0%nat queuedHandle
               ["0000000003"; "0000000001"]%string None None [] eq_refl).
Defined.

(** ** The order of the listing *)




(** ** Errors of the client *)

(** What [Lock] does propagate: the error of [Create] and the error of
    [ExistsW] come back as they are, the flag still [false]. *)
Lemma Lock_propagates_Create_and_ExistsW :
  (forall fuel g created e rest,
      locked g = false -> ephemeralPath g = ""%string ->
      snd (run (Lock fuel g) (RCreate (created, Some e) :: rest))
      = Returned (set_ephemeralPath g created, Some e)) /\
  (forall fuel g children myIndex predecessor stat w e rest,
      index children (myIndex - 1) = Some predecessor ->
      snd (run (watchLoop (S fuel) g children myIndex) (RExistsW (stat, w, Some e) :: rest))
      = Returned (g, Some e)).
Proof.
  split.
  - intros fuel g created e rest Hl Hp. now rewrite run_Lock_create.
  - intros fuel g children myIndex predecessor stat w e rest Hpred.
    now rewrite (run_watchLoop _ _ _ _ predecessor).
Qed.

(** C2, on the code.  The error of [Children] is assigned and never read.
    When the call fails with an empty listing, [Lock] returns the "no
    children" error of its own, which is not the client's error; when it
    fails with a listing headed by the handle's own name, the error is
    dropped and [Lock] reports success. *)
Theorem Lock_drops_Children_error :
  forall (fuel : nat) (g : GlobalLock) (created : string) (code : Z) st (rest : list reply),
    locked g = false -> ephemeralPath g = ""%string ->
    (snd (run (Lock (S fuel) g)
              (RCreate (created, None) :: RChildren ([], st, Some (ZkError code)) :: rest))
     = Returned (set_ephemeralPath g created, Some (fmt.Errorf msgNoChildren created)) /\
     fmt.Errorf msgNoChildren created <> ZkError code) /\
    snd (run (Lock (S fuel) g)
             (RCreate (created, None)
                :: RChildren ([path.Base created], st, Some (ZkError code)) :: rest))
    = Returned (set_locked (set_ephemeralPath g created) true, None).
Proof.
  intros fuel g created code st rest Hl Hp. split; [split|].
  - rewrite run_Lock_create by assumption. cbv beta iota.
    rewrite lockLoop_empty_turn. reflexivity.
  - discriminate.
  - rewrite run_Lock_create by assumption. cbv beta iota.
    rewrite lockLoop_granting_turn by reflexivity. reflexivity.
Qed.

Lemma Lock_drops_Children_error_witness :
  (locked freshHandle = false /\ ephemeralPath freshHandle = ""%string) /\
  snd (run (Lock 1 freshHandle)
           [RCreate ("/lock/0000000001"%string, None);
            RChildren ([], None, Some (ZkError (-4)))])
  = Returned (queuedHandle, Some (ErrorString
      "Lock in unknown state. Ephemeral path /lock/0000000001 exists but there are no children.")).
Proof.
  split; [split; reflexivity|].
  exact (proj1 (proj1 (Lock_drops_Children_error 0%nat freshHandle
                         "/lock/0000000001"%string (-4) None [] eq_refl eq_refl))).
Defined.

(** ** After the watch *)

(** C3, on the code.  [watchLoop] is at [ExistsW] on the predecessor.
    (1) With a [nil] stat the inner loop is left, and the next call is
    [Children] on the root.
    (2) With a stat, [Lock] receives from the watch channel, and the call
    after that is [ExistsW] on the same predecessor of the same listing.
    (3) At that point an answer to [Children] meets no call: the listing
    is not read again. *)
Theorem watchLoop_after_wake :
  forall (fuel : nat) (g : GlobalLock) children myIndex predecessor,
    index children (myIndex - 1) = Some predecessor ->
    let watch := ExistsW (conn g) (root g ++ "/" ++ predecessor)%string in
    (forall w listed rest,
        exists log o,
          run (watchLoop (S (S fuel)) g children myIndex)
              (RExistsW (None, w, None) :: RChildren listed :: rest)
          = (Ev watch (None, w, None) :: Ev (Children (conn g) (root g)) listed :: log, o)) /\
    (forall st w again rest,
        exists log o,
          run (watchLoop (S (S fuel)) g children myIndex)
              (RExistsW (Some st, w, None) :: RRecv :: RExistsW again :: rest)
          = (Ev watch (Some st, w, None) :: Ev (Recv w) tt :: Ev watch again :: log, o)) /\
    (forall st w listed rest,
        run (watchLoop (S (S fuel)) g children myIndex)
            (RExistsW (Some st, w, None) :: RRecv :: RChildren listed :: rest)
        = ([Ev watch (Some st, w, None); Ev (Recv w) tt], Unexpected)).
Proof.
  intros fuel g children myIndex predecessor Hpred watch. split; [|split].
  - intros w [[cs st] cerr] rest.
    rewrite (run_watchLoop _ _ _ _ predecessor) by exact Hpred. cbv beta iota.
    rewrite run_lockLoop. cbv zeta.
    destruct (run _ rest) as [log o]. now exists log, o.
  - intros st w again rest.
    rewrite (run_watchLoop _ _ _ _ predecessor) by exact Hpred. cbv beta iota.
    rewrite run_Recv, (run_watchLoop _ _ _ _ predecessor) by exact Hpred.
    destruct again as [[stat' w'] err'].
    destruct (run _ rest) as [log o]. now exists log, o.
  - intros st w listed rest.
    rewrite (run_watchLoop _ _ _ _ predecessor) by exact Hpred. cbv beta iota.
    rewrite run_Recv, (run_watchLoop _ _ _ _ predecessor) by exact Hpred.
    reflexivity.
Qed.

Lemma watchLoop_after_wake_witness :
  index ["0000000001"; "0000000003"; "0000000004"]%string (2 - 1)
  = Some "0000000003"%string /\
  run (watchLoop 2 (set_ephemeralPath freshHandle "/lock/0000000004")
                 ["0000000001"; "0000000003"; "0000000004"]%string 2)
      [RExistsW (Some someStat, 1%nat, None); RRecv;
       RChildren (["0000000004"]%string, None, None)]
  = ([Ev (ExistsW 7%nat "/lock/0000000003") (Some someStat, 1%nat, None);
      Ev (Recv 1%nat) tt], Unexpected).
Proof.
  split; [reflexivity|].
  exact (proj2 (proj2 (watchLoop_after_wake 0%nat
                 (set_ephemeralPath freshHandle "/lock/0000000004")
                 ["0000000001"; "0000000003"; "0000000004"]%string 2
                 "0000000003"%string eq_refl))
               someStat 1%nat (["0000000004"]%string, None, None) []).
Defined.

(** The same from [Lock] itself: the node is created as the third of the
    queue, the predecessor is watched, the watch fires, and the call that
    follows is the watch on the same predecessor again. *)
Example Lock_rewatches_predecessor :
  run (Lock 3 freshHandle)
      [RCreate ("/lock/0000000004"%string, None);
       RChildren (["0000000004"; "0000000001"; "0000000003"]%string, None, None);
       RExistsW (Some someStat, 1%nat, None); RRecv;
       RExistsW (Some someStat, 2%nat, None)]
  = ([Ev (Create 7%nat "/lock/" "" 3 (WorldACL PERM_ALL)) ("/lock/0000000004"%string, None);
      Ev (Children 7%nat "/lock")
         (["0000000004"; "0000000001"; "0000000003"]%string, None, None);
      Ev (ExistsW 7%nat "/lock/0000000003") (Some someStat, 1%nat, None);
      Ev (Recv 1%nat) tt;
      Ev (ExistsW 7%nat "/lock/0000000003") (Some someStat, 2%nat, None)], Blocked).
Proof. reflexivity. Qed.

(** ** The index of the predecessor *)

(** When the handle's own name is in the listing and is not its least
    name, [myIndex] is at least 1, the own name sits at [myIndex], and
    [children[myIndex-1]] is a strictly smaller name: the inner loop
    starts with a watch on it. *)
Lemma predecessor_in_bounds_when_listed :
  forall (fuel : nat) (g : GlobalLock) (children : list string) (first : string),
    let sorted := sort.Strings children in
    let own := path.Base (ephemeralPath g) in
    In own children -> hd_error sorted = Some first -> first <> own ->
    1 <= sort.SearchStrings sorted own < len sorted /\
    index sorted (sort.SearchStrings sorted own) = Some own /\
    exists predecessor,
      index sorted (sort.SearchStrings sorted own - 1) = Some predecessor /\
      String.leb own predecessor = false /\
      forall stat w e rest,
        run (watchLoop (S fuel) g sorted (sort.SearchStrings sorted own))
            (RExistsW (stat, w, Some e) :: rest)
        = ([Ev (ExistsW (conn g) (root g ++ "/" ++ predecessor)%string) (stat, w, Some e)],
           Returned (g, Some e)).
Proof.
  intros fuel g children first sorted own Hin Hhd Hne.
  assert (Hin' : In own sorted)
    by (eapply Permutation_in; [apply Strings_perm|exact Hin]).
  pose proof (Strings_sorted children) as Hs. fold sorted in Hs.
  rewrite <- index_hd in Hhd.
  destruct (SearchStrings_predecessor sorted own Hs first Hin' Hhd Hne)
    as (H1 & predecessor & Hpred & Hlt).
  pose proof (SearchStrings_found sorted own Hs Hin') as Hfound.
  pose proof (index_Some_range _ _ _ Hfound) as Hrange.
  split; [lia|]. split; [exact Hfound|].
  exists predecessor. split; [exact Hpred|]. split; [exact Hlt|].
  intros stat w e rest. now rewrite (run_watchLoop _ _ _ _ predecessor) by exact Hpred.
Qed.

(** C9, on the code.  Nothing in [Lock] checks that the own name is in the
    listing.  When it is not and it sorts before the least name listed,
    [sort.SearchStrings] gives 0, and [children[myIndex-1]] is
    [children[-1]]: the run ends in a panic, after the listing and before
    any watch. *)
Theorem Lock_panics_when_own_name_sorts_first :
  forall (fuel : nat) (g : GlobalLock) (children : list string) (first : string)
         st cerr (rest : list reply),
    let sorted := sort.Strings children in
    let own := path.Base (ephemeralPath g) in
    hd_error sorted = Some first -> first <> own -> String.leb own first = true ->
    sort.SearchStrings sorted own = 0 /\
    index sorted (sort.SearchStrings sorted own - 1) = None /\
    run (lockLoop (S (S fuel)) g) (RChildren (children, st, cerr) :: rest)
    = ([Ev (Children (conn g) (root g)) (children, st, cerr)],
       Panicked "index out of range").
Proof.
  intros fuel g children first st cerr rest sorted own Hhd Hne Hle.
  pose proof (Strings_sorted children) as Hs. fold sorted in Hs.
  rewrite <- index_hd in Hhd.
  pose proof (SearchStrings_front sorted own Hs first Hhd Hle) as H0.
  split; [exact H0|]. split; [now rewrite H0|].
  rewrite run_lockLoop. cbv zeta. fold sorted. fold own. rewrite Hhd.
  destruct (len sorted =? 0) eqn:Elen.
  { apply Z.eqb_eq in Elen. apply index_Some_range in Hhd. lia. }
  apply String.eqb_neq in Hne. rewrite Hne.
  rewrite run_watchLoop_panic by now rewrite H0.
  reflexivity.
Qed.

Lemma Lock_panics_when_own_name_sorts_first_witness :
  (hd_error (sort.Strings ["0000000002"]%string) = Some "0000000002"%string /\
   "0000000002"%string <> path.Base (ephemeralPath queuedHandle) /\
   String.leb (path.Base (ephemeralPath queuedHandle)) "0000000002" = true) /\
  run (lockLoop 2 queuedHandle) [RChildren (["0000000002"]%string, None, None)]
  = ([Ev (Children 7%nat "/lock") (["0000000002"]%string, None, None)],
     Panicked "index out of range").
Proof.
  split; [split; [reflexivity|split; [discriminate|reflexivity]]|].
  exact (proj2 (proj2 (Lock_panics_when_own_name_sorts_first 0%nat queuedHandle
                         ["0000000002"]%string "0000000002"%string None None []
                         eq_refl ltac:(discriminate) eq_refl))).
Defined.

(** The same from [Lock] itself: the node is created, it is gone from the
    next listing, and the name left in the listing is a later one. *)
Example Lock_panics_on_vanished_node :
  run (Lock 2 freshHandle)
      [RCreate ("/lock/0000000001"%string, None);
       RChildren (["0000000002"]%string, None, None)]
  = ([Ev (Create 7%nat "/lock/" "" 3 (WorldACL PERM_ALL)) ("/lock/0000000001"%string, None);
      Ev (Children 7%nat "/lock") (["0000000002"]%string, None, None)],
     Panicked "index out of range").
Proof. reflexivity. Qed.

(** * Further properties of the package *)

(** ** Every way [Lock] returns *)

Section Returns.

Lemma loops_returned (fuel : nat) :
  (forall g script log r,
      run (lockLoop fuel g) script = (log, Returned r) ->
      exists e, lastEvent log = Some e /\ loopExit g e r) /\
  (forall g children myIndex script log r,
      run (watchLoop fuel g children myIndex) script = (log, Returned r) ->
      exists e, lastEvent log = Some e /\ loopExit g e r).
Proof.
  induction fuel as [|fuel [IHlock IHwatch]]; split.
  - intros g script log r H. discriminate H.
  - intros g children myIndex script log r H. discriminate H.
  - intros g [|a rest] log r H; [discriminate H|].
    rewrite run_lockLoop in H.
    destruct a as [?|[[children st] cerr]|?| |?]; try discriminate H.
    cbv zeta in H.
    destruct (len (sort.Strings children) =? 0) eqn:Elen.
    { cbn in H. injection H as <- <-.
      apply Z.eqb_eq in Elen.
      assert (children = []) as ->.
      { apply Strings_nil_inv. destruct (sort.Strings children); [reflexivity|discriminate]. }
      eexists. split; [reflexivity|]. right. left. split; reflexivity. }
    destruct (nonempty_slice _ Elen) as [first Hfirst]. rewrite Hfirst in H.
    destruct (String.eqb first (path.Base (ephemeralPath g))) eqn:Eown.
    + cbn in H. injection H as <- <-.
      apply String.eqb_eq in Eown. subst first.
      eexists. split; [reflexivity|]. left. split; [reflexivity|].
      exists children. split; [reflexivity|]. now rewrite <- index_hd.
    + split_run H as tl E.
      destruct (IHwatch _ _ _ _ _ _ E) as (e & Hlast & Hexit).
      exists e. split; [|exact Hexit].
      rewrite lastEvent_cons by (eapply lastEvent_Some_nonempty, Hlast). exact Hlast.
  - intros g children myIndex [|a rest] log r H.
    { cbn [watchLoop] in H. destruct (index children (myIndex - 1)); discriminate H. }
    destruct (index children (myIndex - 1)) as [predecessor|] eqn:Epred.
    2:{ rewrite run_watchLoop_panic in H by exact Epred. discriminate H. }
    rewrite (run_watchLoop _ _ _ _ predecessor) in H by exact Epred.
    destruct a as [?|?|[[stat w] err]| |?]; try discriminate H.
    destruct err as [err|].
    { cbn in H. injection H as <- <-.
      eexists. split; [reflexivity|]. right. right.
      exists stat, w, err. split; reflexivity. }
    destruct stat as [st|].
    + destruct rest as [|b rest]; [discriminate H|].
      rewrite run_Recv in H.
      destruct b; try discriminate H.
      split_run H as tl E. split_run E as tl' E'.
      destruct (IHwatch _ _ _ _ _ _ E') as (e & Hlast & Hexit).
      exists e. split; [|exact Hexit].
      rewrite !lastEvent_cons
        by (try (eapply lastEvent_Some_nonempty, Hlast); discriminate).
      exact Hlast.
    + split_run H as tl E.
      destruct (IHlock _ _ _ _ E) as (e & Hlast & Hexit).
      exists e. split; [|exact Hexit].
      rewrite lastEvent_cons by (eapply lastEvent_Some_nonempty, Hlast). exact Hlast.
Qed.

(** The returns of [Lock] on a handle with no node and without the lock:
    a failed [Create], or an exit of the loops. *)
Lemma Lock_returned_cases (fuel : nat) (g : GlobalLock) script log r :
  locked g = false -> ephemeralPath g = ""%string ->
  run (Lock fuel g) script = (log, Returned r) ->
  exists created cerr tail,
    log = Ev (Create (conn g) (root g ++ "/")%string "" (Z.lor EPHEMERAL SEQUENCE)
                     (WorldACL PERM_ALL)) (created, cerr) :: tail /\
    ((exists err, cerr = Some err /\ tail = [] /\
                  r = (set_ephemeralPath g created, Some err)) \/
     (cerr = None /\
      exists e, lastEvent tail = Some e /\ loopExit (set_ephemeralPath g created) e r)).
Proof.
  intros Hl Hp H.
  destruct script as [|a rest].
  { unfold Lock in H. rewrite Hl, Hp in H. discriminate H. }
  rewrite run_Lock_create in H by assumption.
  destruct a as [[created [err|]]|?|?| |?]; try discriminate H.
  - cbn in H. injection H as <- <-.
    exists created, (Some err), []. split; [reflexivity|].
    left. exists err. auto.
  - split_run H as tl E.
    exists created, None, tl. split; [reflexivity|]. right. split; [reflexivity|].
    exact (proj1 (loops_returned fuel) _ _ _ _ E).
Qed.

(** All returns of [Lock], from any handle. *)
Lemma Lock_returned_any (fuel : nat) (g : GlobalLock) script log r :
  run (Lock fuel g) script = (log, Returned r) ->
  (locked g = true /\ log = [] /\ r = (g, None)) \/
  (locked g = false /\ ephemeralPath g <> ""%string /\ log = [] /\
   r = (g, Some (fmt.Errorf msgNotObtained (ephemeralPath g)))) \/
  (locked g = false /\ ephemeralPath g = ""%string /\
   exists created cerr tail,
     log = Ev (Create (conn g) (root g ++ "/")%string "" (Z.lor EPHEMERAL SEQUENCE)
                      (WorldACL PERM_ALL)) (created, cerr) :: tail /\
     ((exists err, cerr = Some err /\ tail = [] /\
                   r = (set_ephemeralPath g created, Some err)) \/
      (cerr = None /\
       exists e, lastEvent tail = Some e /\ loopExit (set_ephemeralPath g created) e r))).
Proof.
  intros H. destruct (locked g) eqn:Hl.
  - left. unfold Lock in H. rewrite Hl in H. cbn in H. injection H as <- <-. auto.
  - right. destruct (String.eqb_spec (ephemeralPath g) "") as [Hp|Hp].
    + right. split; [reflexivity|]. split; [exact Hp|].
      eapply Lock_returned_cases; eassumption.
    + left. rewrite (Lock_with_stale_path fuel g Hl Hp) in H.
      cbn in H. injection H as <- <-. auto.
Qed.

End Returns.

(** X1.  [Lock] returns [nil] exactly when it leaves the handle holding
    the lock: there is no success without the flag and no error with it,
    whatever state the handle was in when [Lock] was called. *)
Theorem Lock_nil_iff_locked :
  forall (fuel : nat) (g : GlobalLock) script log g' err,
    run (Lock fuel g) script = (log, Returned (g', err)) ->
    (err = None <-> locked g' = true).
Proof.
  intros fuel g script log g' err H.
  destruct (Lock_returned_any _ _ _ _ _ H)
    as [(Hl & _ & E)|[(Hl & _ & _ & E)|(Hl & _ & created & cerr & tail & _ & Hcase)]].
  - injection E as -> ->. now split.
  - injection E as -> ->. split; [discriminate|congruence].
  - destruct Hcase as [(e & _ & _ & E)|(_ & e & _ & Hexit)].
    + injection E as -> ->. cbn. split; [discriminate|congruence].
    + destruct Hexit as [(E & _)|[(E & _)|(st & w & e' & E & _)]];
        injection E as -> ->; cbn; split; congruence.
Qed.

Lemma Lock_nil_iff_locked_witness :
  run (Lock 1 freshHandle) uncontended = (fst (run (Lock 1 freshHandle) uncontended),
                                          Returned (heldHandle, None)) /\
  (@None error = None <-> locked heldHandle = true).
Proof.
  split; [reflexivity|].
  exact (Lock_nil_iff_locked 1%nat freshHandle uncontended _ heldHandle None eq_refl).
Defined.

(** X2.  Whatever [Lock] returns, the handle keeps its session and its
    root.  Its node path is untouched when no call was made; otherwise the
    first call is the one [Create], on [root + "/"], and the node path is
    the path that call was answered with. *)
Theorem Lock_keeps_session_and_root :
  forall (fuel : nat) (g : GlobalLock) script log g' err,
    run (Lock fuel g) script = (log, Returned (g', err)) ->
    Session g' = Session g /\ root g' = root g /\
    ((log = [] /\ g' = g) \/
     exists created cerr tail,
       log = Ev (Create (conn g) (root g ++ "/")%string "" (Z.lor EPHEMERAL SEQUENCE)
                        (WorldACL PERM_ALL)) (created, cerr) :: tail /\
       ephemeralPath g' = created).
Proof.
  intros fuel g script log g' err H.
  destruct (Lock_returned_any _ _ _ _ _ H)
    as [(Hl & -> & E)|[(Hl & _ & -> & E)|(Hl & _ & created & cerr & tail & -> & Hcase)]].
  - injection E as -> ->. auto.
  - injection E as -> ->. auto.
  - assert (Hg : g' = set_ephemeralPath g created \/
                 g' = set_locked (set_ephemeralPath g created) true).
    { destruct Hcase as [(e & _ & _ & E)|(_ & e & _ & Hexit)].
      - injection E as -> _. now left.
      - destruct Hexit as [(E & _)|[(E & _)|(st & w & e' & E & _)]];
          injection E as -> _; auto. }
    split; [destruct Hg as [-> | ->]; reflexivity|].
    split; [destruct Hg as [-> | ->]; reflexivity|].
    right. exists created, cerr, tail. split; [reflexivity|].
    destruct Hg as [-> | ->]; reflexivity.
Qed.

Lemma Lock_keeps_session_and_root_witness :
  run (Lock 2 freshHandle) watchFails
  = (fst (run (Lock 2 freshHandle) watchFails),
     Returned (queuedHandle, Some (ZkError (-4)))) /\
  Session queuedHandle = Session freshHandle /\ root queuedHandle = root freshHandle.
Proof.
  split; [reflexivity|].
  destruct (Lock_keeps_session_and_root 2%nat freshHandle watchFails _ queuedHandle
              (Some (ZkError (-4))) eq_refl) as (HS & HR & _).
  split; [exact HS|exact HR].
Defined.

(** X3.  The errors [Lock] can return are of three kinds and no other:
    the "lock not obtained" error, returned before any call; the "no
    children" error, when the last call is a listing answered empty; and
    the error of the client, when the last call is a [Create] or an
    [ExistsW] answered with that very error. *)
Theorem Lock_errors_classified :
  forall (fuel : nat) (g : GlobalLock) script log g' err,
    run (Lock fuel g) script = (log, Returned (g', Some err)) ->
    (log = [] /\ g' = g /\ err = fmt.Errorf msgNotObtained (ephemeralPath g)) \/
    exists e,
      lastEvent log = Some e /\
      ((listing e = Some [] /\ err = fmt.Errorf msgNoChildren (ephemeralPath g')) \/
       (exists created, createAnswer e = Some (created, Some err)) \/
       (exists stat w, watchAnswer e = Some (stat, w, Some err))).
Proof.
  intros fuel g script log g' err H.
  destruct (Lock_returned_any _ _ _ _ _ H)
    as [(Hl & _ & E)|[(Hl & _ & -> & E)|(Hl & _ & created & cerr & tail & -> & Hcase)]].
  - discriminate E.
  - injection E as -> ->. auto.
  - right. destruct Hcase as [(e & -> & -> & E)|(_ & e & Hlast & Hexit)].
    + injection E as _ <-. eexists. split; [reflexivity|].
      right. left. now exists created.
    + exists e. split.
      { rewrite lastEvent_cons by (eapply lastEvent_Some_nonempty, Hlast). exact Hlast. }
      destruct Hexit as [(E & _)|[(E & Hempty)|(st & w & e' & E & Hw)]].
      * discriminate E.
      * injection E as -> ->. left. split; [exact Hempty|reflexivity].
      * injection E as _ ->. right. right. now exists st, w.
Qed.

Lemma Lock_errors_classified_witness :
  run (Lock 2 freshHandle) watchFails
  = (fst (run (Lock 2 freshHandle) watchFails),
     Returned (queuedHandle, Some (ZkError (-4)))) /\
  exists e, lastEvent (fst (run (Lock 2 freshHandle) watchFails)) = Some e /\
            watchAnswer e = Some (None, 0%nat, Some (ZkError (-4))).
Proof.
  split; [reflexivity|].
  destruct (Lock_errors_classified 2%nat freshHandle watchFails _ queuedHandle
              (ZkError (-4)) eq_refl) as [(Hnil & _)|(e & Hlast & _)].
  - discriminate Hnil.
  - exists e. split; [exact Hlast|].
    cbn in Hlast. injection Hlast as <-. reflexivity.
Defined.

(** ** Errors of [Create] and [ExistsW] *)

Section ClientErrors.

(** In a run of either loop no call is a [Create], and a run whose last
    answered call is a failed [ExistsW] returns that error. *)
Lemma loops_watch_failure (fuel : nat) :
  (forall g script log o e,
      run (lockLoop fuel g) script = (log, o) -> lastEvent log = Some e ->
      createAnswer e = None /\
      forall stat w err, watchAnswer e = Some (stat, w, Some err) ->
                         o = Returned (g, Some err)) /\
  (forall g children myIndex script log o e,
      run (watchLoop fuel g children myIndex) script = (log, o) ->
      lastEvent log = Some e ->
      createAnswer e = None /\
      forall stat w err, watchAnswer e = Some (stat, w, Some err) ->
                         o = Returned (g, Some err)).
Proof.
  induction fuel as [|fuel [IHlock IHwatch]]; split.
  - intros g script log o e H Hlast. no_last_event H Hlast.
  - intros g children myIndex script log o e H Hlast. no_last_event H Hlast.
  - intros g [|a rest] log o e H Hlast; [no_last_event H Hlast|].
    rewrite run_lockLoop in H.
    destruct a as [?|[[children st] cerr]|?| |?]; try (no_last_event H Hlast).
    cbv zeta in H.
    destruct (len (sort.Strings children) =? 0).
    { cbn in H. injection H as <- <-. cbn in Hlast. injection Hlast as <-.
      split; [reflexivity|discriminate]. }
    destruct (index (sort.Strings children) 0) as [first|].
    2:{ cbn in H. injection H as <- <-. cbn in Hlast. injection Hlast as <-.
        split; [reflexivity|discriminate]. }
    destruct (String.eqb first (path.Base (ephemeralPath g))).
    + cbn in H. injection H as <- <-. cbn in Hlast. injection Hlast as <-.
      split; [reflexivity|discriminate].
    + split_run H as tl E. destruct tl as [|e' tl].
      * cbn in Hlast. injection Hlast as <-. split; [reflexivity|discriminate].
      * rewrite lastEvent_cons in Hlast by discriminate. eauto.
  - intros g children myIndex [|a rest] log o e H Hlast.
    { cbn [watchLoop] in H. destruct (index children (myIndex - 1));
        no_last_event H Hlast. }
    destruct (index children (myIndex - 1)) as [predecessor|] eqn:Epred.
    2:{ rewrite run_watchLoop_panic in H by exact Epred. no_last_event H Hlast. }
    rewrite (run_watchLoop _ _ _ _ predecessor) in H by exact Epred.
    destruct a as [?|?|[[stat w] err]| |?]; try (no_last_event H Hlast).
    destruct err as [err|].
    { cbn in H. injection H as <- <-. cbn in Hlast. injection Hlast as <-.
      split; [reflexivity|]. intros stat' w' err' Hw. cbn in Hw. congruence. }
    destruct stat as [st|].
    + destruct rest as [|b rest].
      { cbn in H. injection H as <- <-. cbn in Hlast. injection Hlast as <-.
        split; [reflexivity|discriminate]. }
      rewrite run_Recv in H.
      destruct b;
        try (injection H as <- <-; cbn in Hlast; injection Hlast as <-;
             split; [reflexivity|discriminate]).
      split_run H as tl E. split_run E as tl' E'. destruct tl' as [|e' tl'].
      * cbn in Hlast. injection Hlast as <-. split; [reflexivity|discriminate].
      * rewrite !lastEvent_cons in Hlast by discriminate. eauto.
    + split_run H as tl E. destruct tl as [|e' tl].
      * cbn in Hlast. injection Hlast as <-. split; [reflexivity|discriminate].
      * rewrite lastEvent_cons in Hlast by discriminate. eauto.
Qed.

End ClientErrors.

(** X4.  A failure of [Create] or of [ExistsW] always ends [Lock], at once
    and with the client's error as it came: in every run whose last
    answered call is one of the two, answered with an error, [Lock] has
    returned that error and the handle does not hold the lock. *)
Theorem Lock_aborts_on_client_error :
  forall (fuel : nat) (g : GlobalLock) script log o e err,
    run (Lock fuel g) script = (log, o) ->
    lastEvent log = Some e ->
    (exists created, createAnswer e = Some (created, Some err)) \/
    (exists stat w, watchAnswer e = Some (stat, w, Some err)) ->
    exists g', o = Returned (g', Some err) /\ locked g' = false.
Proof.
  intros fuel g script log o e err H Hlast Hfail.
  destruct (locked g) eqn:Hl.
  { unfold Lock in H. rewrite Hl in H. no_last_event H Hlast. }
  destruct (String.eqb_spec (ephemeralPath g) "") as [Hp|Hp].
  2:{ rewrite (Lock_with_stale_path fuel g Hl Hp) in H. no_last_event H Hlast. }
  destruct script as [|a rest].
  { unfold Lock in H. rewrite Hl, Hp in H. no_last_event H Hlast. }
  rewrite run_Lock_create in H by assumption.
  destruct a as [[created [cerr|]]|?|?| |?]; try (no_last_event H Hlast).
  - cbn in H. injection H as <- <-. cbn in Hlast. injection Hlast as <-.
    exists (set_ephemeralPath g created). split; [|exact Hl].
    destruct Hfail as [(p & Hc)|(st & w & Hw)]; [|discriminate Hw].
    cbn in Hc. congruence.
  - split_run H as tl E. destruct tl as [|e' tl].
    + cbn in Hlast. injection Hlast as <-.
      destruct Hfail as [(p & Hc)|(st & w & Hw)]; discriminate.
    + rewrite lastEvent_cons in Hlast by discriminate.
      destruct (proj1 (loops_watch_failure fuel) _ _ _ _ _ E Hlast) as [Hnc Hw].
      destruct Hfail as [(p & Hc)|(st & w & Hw')]; [congruence|].
      exists (set_ephemeralPath g created). split; [eauto|exact Hl].
Qed.

Lemma Lock_aborts_on_client_error_witness :
  lastEvent (fst (run (Lock 2 freshHandle) watchFails))
  = Some (Ev (ExistsW 7%nat "/lock/0000000000") (None, 0%nat, Some (ZkError (-4)))) /\
  exists g', snd (run (Lock 2 freshHandle) watchFails) = Returned (g', Some (ZkError (-4)))
             /\ locked g' = false.
Proof.
  split; [reflexivity|].
  exact (Lock_aborts_on_client_error 2%nat freshHandle watchFails _ _ _ (ZkError (-4))
           eq_refl eq_refl
           (or_intror (ex_intro _ None (ex_intro _ 0%nat eq_refl)))).
Defined.

(** ** The calls [Lock] makes *)

Section Calls.

Lemma loopLog_same_root (g g' : GlobalLock) (log : list event) :
  conn g = conn g' -> root g = root g' ->
  forall latest, loopLog g latest log -> loopLog g' latest log.
Proof.
  intros Hc Hr. induction log as [|[A c a] log IH]; intros latest H; [exact I|].
  destruct c; cbn in *; try contradiction.
  - destruct a as [[children st] cerr]. rewrite <- Hc, <- Hr.
    destruct H as (? & ? & ?). auto.
  - rewrite <- Hc, <- Hr. destruct H as (? & ? & ?). auto.
  - auto.
Qed.

Lemma loops_log (fuel : nat) :
  (forall g script log o,
      run (lockLoop fuel g) script = (log, o) ->
      (forall latest, loopLog g latest log) /\
      (forall previous, recvArmed previous log)) /\
  (forall g children myIndex script log o,
      run (watchLoop fuel g children myIndex) script = (log, o) ->
      (forall latest, (forall name, In name children -> In name latest) ->
                      loopLog g latest log) /\
      (forall previous, recvArmed previous log)).
Proof.
  induction fuel as [|fuel [IHlock IHwatch]]; split.
  - intros g script log o H. injection H as <- _. split; intros; exact I.
  - intros g children myIndex script log o H. injection H as <- _. split; intros; exact I.
  - intros g [|a rest] log o H; [injection H as <- _; split; intros; exact I|].
    rewrite run_lockLoop in H.
    destruct a as [?|[[children st] cerr]|?| |?];
      try (injection H as <- _; split; intros; exact I).
    cbv zeta in H. split_run H as tl E.
    assert (Htl : loopLog g children tl /\ forall previous, recvArmed previous tl).
    { destruct (len (sort.Strings children) =? 0).
      { cbn in E. injection E as <- _. split; intros; exact I. }
      destruct (index (sort.Strings children) 0) as [first|].
      2:{ cbn in E. injection E as <- _. split; intros; exact I. }
      destruct (String.eqb first (path.Base (ephemeralPath g))).
      { cbn in E. injection E as <- _. split; intros; exact I. }
      destruct (IHwatch _ _ _ _ _ _ E) as [Hlog Harmed].
      split; [|exact Harmed]. apply Hlog.
      intros name Hin. eapply Permutation_in; [symmetry; apply Strings_perm|exact Hin]. }
    destruct Htl as [Hlog Harmed].
    split.
    + intros latest. cbn. auto.
    + intros previous. cbn. auto.
  - intros g children myIndex [|a rest] log o H.
    { cbn [watchLoop] in H. destruct (index children (myIndex - 1));
        injection H as <- _; split; intros; exact I. }
    destruct (index children (myIndex - 1)) as [predecessor|] eqn:Epred.
    2:{ rewrite run_watchLoop_panic in H by exact Epred.
        injection H as <- _. split; intros; exact I. }
    rewrite (run_watchLoop _ _ _ _ predecessor) in H by exact Epred.
    destruct a as [?|?|[[stat w] err]| |?];
      try (injection H as <- _; split; intros; exact I).
    split_run H as tl E.
    assert (Hwatch : forall latest, (forall name, In name children -> In name latest) ->
                       exists name, In name latest /\
                         (root g ++ "/" ++ predecessor)%string
                         = (root g ++ "/" ++ name)%string).
    { intros latest Hsub. exists predecessor. split; [|reflexivity].
      eapply Hsub, index_In, Epred. }
    assert (Htl : (forall latest, (forall name, In name children -> In name latest) ->
                                  loopLog g latest tl) /\
                  recvArmed (Some (Ev (ExistsW (conn g) (root g ++ "/" ++ predecessor)%string)
                                      (stat, w, err))) tl).
    { destruct err as [err|].
      { cbn in E. injection E as <- _. split; intros; exact I. }
      destruct stat as [st|].
      - destruct rest as [|b rest].
        { cbn in E. injection E as <- _. split; intros; exact I. }
        rewrite run_Recv in E.
        destruct b; try (injection E as <- _; split; intros; exact I).
        split_run E as tl' E'.
        destruct (IHwatch _ _ _ _ _ _ E') as [Hlog Harmed].
        split.
        + intros latest Hsub. cbn. now apply Hlog.
        + cbn. auto.
      - destruct (IHlock _ _ _ _ E) as [Hlog Harmed]. split; [|apply Harmed].
        intros latest _. apply Hlog. }
    destruct Htl as [Hlog Harmed].
    split.
    + intros latest Hsub. cbn. auto.
    + intros previous. cbn. auto.
Qed.

(** The log of any run of [Lock]: empty, or the one [Create] and then a
    log of the loops. *)
Lemma Lock_log (fuel : nat) (g : GlobalLock) script log o :
  run (Lock fuel g) script = (log, o) ->
  log = [] \/
  exists created cerr tail,
    log = Ev (Create (conn g) (root g ++ "/")%string "" (Z.lor EPHEMERAL SEQUENCE)
                     (WorldACL PERM_ALL)) (created, cerr) :: tail /\
    loopLog g [] tail /\ forall previous, recvArmed previous tail.
Proof.
  intros H. destruct (locked g) eqn:Hl.
  { unfold Lock in H. rewrite Hl in H. injection H as <- _. now left. }
  destruct (String.eqb_spec (ephemeralPath g) "") as [Hp|Hp].
  2:{ rewrite (Lock_with_stale_path fuel g Hl Hp) in H. injection H as <- _. now left. }
  destruct script as [|a rest].
  { unfold Lock in H. rewrite Hl, Hp in H. injection H as <- _. now left. }
  rewrite run_Lock_create in H by assumption.
  destruct a as [[created cerr]|?|?| |?]; try (injection H as <- _; now left).
  split_run H as tl E. right. exists created, cerr, tl. split; [reflexivity|].
  destruct cerr as [err|].
  { cbn in E. injection E as <- _. split; intros; exact I. }
  destruct (proj1 (loops_log fuel) _ _ _ _ E) as [Hlog Harmed].
  split; [|exact Harmed].
  apply (loopLog_same_root (set_ephemeralPath g created)); auto.
Qed.

End Calls.

(** X5.  The calls of [Lock], in any run and whatever its end.  There is
    none, or the first is [Create] of a node under [root + "/"] with empty
    data, flags EPHEMERAL|SEQUENCE and the world ACL; every later call is a
    listing of the root, a receive, or a watch on [root + "/" + name] for a
    name of the latest listing.  So [Lock] creates at most one node and
    never deletes one. *)
Theorem Lock_call_discipline :
  forall (fuel : nat) (g : GlobalLock) script log o,
    run (Lock fuel g) script = (log, o) ->
    log = [] \/
    exists created cerr tail,
      log = Ev (Create (conn g) (root g ++ "/")%string "" 3
                       [ {| Perms := 31; Scheme := "world"; Id := "anyone" |} ])
               (created, cerr) :: tail /\
      loopLog g [] tail.
Proof.
  intros fuel g script log o H.
  destruct (Lock_log _ _ _ _ _ H) as [->|(created & cerr & tail & -> & Hlog & _)].
  - now left.
  - right. now exists created, cerr, tail.
Qed.

Lemma Lock_call_discipline_witness :
  exists created cerr tail,
    fst (run (Lock 2 freshHandle) watchFails)
    = Ev (Create 7%nat "/lock/" "" 3
                 [ {| Perms := 31; Scheme := "world"; Id := "anyone" |} ])
         (created, cerr) :: tail /\
    loopLog freshHandle [] tail.
Proof.
  destruct (Lock_call_discipline 2%nat freshHandle watchFails _ _ eq_refl)
    as [Hnil|Hlog].
  - discriminate Hnil.
  - exact Hlog.
Defined.

(** X6.  [Lock] blocks only on a watch it has just set: in any run, every
    receive [<-w] comes directly after an [ExistsW] that was answered with
    the channel [w], a stat that is not [nil] and no error. *)
Theorem Lock_receives_only_armed_watch :
  forall (fuel : nat) (g : GlobalLock) script log o,
    run (Lock fuel g) script = (log, o) ->
    recvArmed None log.
Proof.
  intros fuel g script log o H.
  destruct (Lock_log _ _ _ _ _ H) as [->|(created & cerr & tail & -> & _ & Harmed)].
  - exact I.
  - cbn. split; [exact I|apply Harmed].
Qed.

Lemma Lock_receives_only_armed_watch_witness :
  recvArmed None
    [Ev (Create 7%nat "/lock/" "" 3 (WorldACL PERM_ALL)) ("/lock/0000000004"%string, None);
     Ev (Children 7%nat "/lock")
        (["0000000004"; "0000000001"; "0000000003"]%string, None, None);
     Ev (ExistsW 7%nat "/lock/0000000003") (Some someStat, 1%nat, None);
     Ev (Recv 1%nat) tt;
     Ev (ExistsW 7%nat "/lock/0000000003") (Some someStat, 2%nat, None)].
Proof.
  exact (Lock_receives_only_armed_watch 3%nat freshHandle
           [RCreate ("/lock/0000000004"%string, None);
            RChildren (["0000000004"; "0000000001"; "0000000003"]%string, None, None);
            RExistsW (Some someStat, 1%nat, None); RRecv;
            RExistsW (Some someStat, 2%nat, None)] _ _ eq_refl).
Defined.

(** ** Which node is watched *)

Section Predecessor.

Lemma leb_false_ltb (a b : string) : String.leb a b = false -> String.ltb b a = true.
Proof.
  unfold String.ltb, String.leb. rewrite (String.compare_antisym b a).
  destruct (String.compare a b); simpl; congruence.
Qed.

(** The entry left of the place of [x] is the greatest entry below [x]. *)
Lemma SearchStrings_greatest_below (a : list string) (x predecessor : string) :
  StronglySorted byName a ->
  index a (sort.SearchStrings a x - 1) = Some predecessor ->
  forall name, In name a -> String.ltb name x = true -> byName name predecessor.
Proof.
  intros Hs Hpred name Hin Hlt.
  destruct (SearchStrings_spec a x Hs) as (R1 & R2 & R3).
  apply In_nth_error in Hin as [k Hk].
  assert (Hk' : index a (Z.of_nat k) = Some name)
    by (apply index_nth_error; rewrite Nat2Z.id; split; [lia|exact Hk]).
  assert (Z.of_nat k < sort.SearchStrings a x).
  { destruct (Z.lt_ge_cases (Z.of_nat k) (sort.SearchStrings a x)) as [H|H]; [exact H|].
    specialize (R3 (Z.of_nat k) name H Hk').
    rewrite (ltb_leb_false _ _ Hlt) in R3. discriminate R3. }
  eapply sorted_index; [exact Hs| |exact Hk'|exact Hpred]. lia.
Qed.

End Predecessor.

(** X7.  The node [Lock] watches is the immediate predecessor of its own.
    When the own name is in the listing and is not the least, the call
    after the listing is [ExistsW] on [root + "/" + predecessor], where the
    predecessor is a listed name strictly below the own name and no listed
    name lies strictly between the two. *)
Theorem Lock_watches_immediate_predecessor :
  forall (fuel : nat) (g : GlobalLock) (children : list string) (first : string),
    let own := path.Base (ephemeralPath g) in
    In own children ->
    hd_error (sort.Strings children) = Some first -> first <> own ->
    exists predecessor,
      In predecessor children /\
      String.ltb predecessor own = true /\
      (forall name, In name children -> String.ltb name own = true ->
                    String.leb name predecessor = true) /\
      forall st cerr answer rest,
        exists log o,
          run (lockLoop (S (S fuel)) g)
              (RChildren (children, st, cerr) :: RExistsW answer :: rest)
          = (Ev (Children (conn g) (root g)) (children, st, cerr)
               :: Ev (ExistsW (conn g) (root g ++ "/" ++ predecessor)%string) answer
               :: log, o).
Proof.
  intros fuel g children first own Hin Hhd Hne.
  set (sorted := sort.Strings children) in *.
  assert (Hin' : In own sorted)
    by (eapply Permutation_in; [apply Strings_perm|exact Hin]).
  pose proof (Strings_sorted children) as Hs. fold sorted in Hs.
  rewrite <- index_hd in Hhd.
  destruct (SearchStrings_predecessor sorted own Hs first Hin' Hhd Hne)
    as (H1 & predecessor & Hpred & Hlt).
  exists predecessor. split; [|split; [|split]].
  - eapply Permutation_in; [symmetry; apply Strings_perm|].
    eapply index_In, Hpred.
  - now apply leb_false_ltb.
  - intros name Hname Hbelow.
    apply (SearchStrings_greatest_below sorted own predecessor Hs Hpred); [|exact Hbelow].
    eapply Permutation_in; [apply Strings_perm|exact Hname].
  - intros st cerr answer rest.
    rewrite run_lockLoop. cbv zeta. fold sorted. fold own. rewrite Hhd.
    destruct (len sorted =? 0) eqn:Elen.
    { apply Z.eqb_eq in Elen. apply index_Some_range in Hhd. lia. }
    apply String.eqb_neq in Hne. rewrite Hne.
    rewrite (run_watchLoop _ _ _ _ predecessor) by exact Hpred.
    destruct answer as [[stat w] err].
    destruct (run _ rest) as [log o]. now exists log, o.
Qed.

Lemma Lock_watches_immediate_predecessor_witness :
  (In (path.Base "/lock/0000000004")
      ["0000000004"; "0000000001"; "0000000003"]%string /\
   hd_error (sort.Strings ["0000000004"; "0000000001"; "0000000003"]%string)
   = Some "0000000001"%string) /\
  exists predecessor,
    String.ltb predecessor "0000000004" = true /\
    String.leb "0000000003" predecessor = true.
Proof.
  split; [split; [now left|reflexivity]|].
  destruct (Lock_watches_immediate_predecessor 0%nat
              (set_ephemeralPath freshHandle "/lock/0000000004")
              ["0000000004"; "0000000001"; "0000000003"]%string "0000000001"%string
              ltac:(now left) eq_refl ltac:(discriminate))
    as (predecessor & _ & Hlt & Hmax & _).
  exists predecessor. split; [exact Hlt|].
  apply Hmax; [right; right; now left|reflexivity].
Defined.

(** ** The own name *)

Section OwnName.

Lemma hasSlash_app (a b : string) :
  path.hasSlash (a ++ b) = path.hasSlash a || path.hasSlash b.
Proof.
  induction a as [|c a IH]; simpl; [reflexivity|].
  now rewrite IH, orb_assoc.
Qed.

Lemma stripTrailingSlashes_name (name : string) :
  name <> ""%string -> path.hasSlash name = false ->
  path.stripTrailingSlashes name = name.
Proof.
  induction name as [|c name IH]; intros Hne Hs; [congruence|].
  cbn in Hs. apply orb_false_iff in Hs as [Hc Hs].
  cbn [path.stripTrailingSlashes].
  destruct name as [|c' name].
  - cbn. now rewrite Hc.
  - rewrite IH by (congruence || exact Hs). reflexivity.
Qed.

Lemma stripTrailingSlashes_app (a name : string) :
  name <> ""%string -> path.hasSlash name = false ->
  path.stripTrailingSlashes (a ++ name) = (a ++ name)%string.
Proof.
  intros Hne Hs. induction a as [|c a IH]; cbn [String.append].
  - now apply stripTrailingSlashes_name.
  - cbn [path.stripTrailingSlashes]. rewrite IH.
    destruct (a ++ name)%string eqn:E; [|reflexivity].
    destruct a; cbn in E; congruence.
Qed.

Lemma afterLastSlash_child (dir name : string) :
  path.hasSlash name = false ->
  path.afterLastSlash (dir ++ "/" ++ name) = name.
Proof.
  intros Hs. induction dir as [|c dir IH]; cbn [String.append path.afterLastSlash].
  - rewrite Hs. reflexivity.
  - rewrite hasSlash_app. cbn. rewrite orb_true_r. exact IH.
Qed.

(** [path.Base] undoes the join of a directory and a child name. *)
Lemma Base_child (dir name : string) :
  name <> ""%string -> path.hasSlash name = false ->
  path.Base (dir ++ "/" ++ name) = name.
Proof.
  intros Hne Hs. unfold path.Base.
  assert (Hp : String.eqb (dir ++ "/" ++ name) "" = false).
  { apply String.eqb_neq. destruct dir; discriminate. }
  rewrite Hp.
  assert (Hstrip : path.stripTrailingSlashes (dir ++ "/" ++ name)
                   = (dir ++ "/" ++ name)%string).
  { rewrite <- string_append_assoc. now apply stripTrailingSlashes_app. }
  cbv zeta. rewrite Hstrip, afterLastSlash_child by exact Hs.
  apply String.eqb_neq in Hne. now rewrite Hne.
Qed.

End OwnName.

(** X8.  The name [Lock] looks for in the listing is the child name of its
    node.  When [Create] answers [root + "/" + name], for a name that is
    not empty and has no slash, [path.Base] gives back [name], and [Lock]
    returns with the lock on the first listing whose least name is
    [name]. *)
Theorem Lock_own_name_is_child_name :
  forall (fuel : nat) (g : GlobalLock) (name : string) (children : list string)
         st cerr (rest : list reply),
    locked g = false -> ephemeralPath g = ""%string ->
    name <> ""%string -> path.hasSlash name = false ->
    path.Base (root g ++ "/" ++ name) = name /\
    (hd_error (sort.Strings children) = Some name ->
     snd (run (Lock (S fuel) g)
              (RCreate ((root g ++ "/" ++ name)%string, None)
                 :: RChildren (children, st, cerr) :: rest))
     = Returned ({| Session := Session g; root := root g;
                    ephemeralPath := (root g ++ "/" ++ name)%string;
                    locked := true |}, None)).
Proof.
  intros fuel g name children st cerr rest Hl Hp Hne Hs.
  pose proof (Base_child (root g) name Hne Hs) as HB.
  split; [exact HB|]. intros Hmin.
  rewrite run_Lock_create by assumption. cbv beta iota.
  rewrite lockLoop_granting_turn
    by (unfold set_ephemeralPath; cbn [ephemeralPath]; now rewrite HB).
  reflexivity.
Qed.

Lemma Lock_own_name_is_child_name_witness :
  path.Base ("/lock" ++ "/" ++ "0000000001") = "0000000001"%string /\
  snd (run (Lock 1 freshHandle) uncontended) = Returned (heldHandle, None).
Proof.
  destruct (Lock_own_name_is_child_name 0%nat freshHandle "0000000001"%string
              ["0000000001"%string] None None [] eq_refl eq_refl
              ltac:(discriminate) eq_refl) as [HB Hrun].
  split; [exact HB|exact (Hrun eq_refl)].
Defined.

(** X9.  The order in which [Children] lists the names does not matter:
    on two listings that are rearrangements of one another, a turn of the
    outer loop ends the same way and makes the same calls afterwards. *)
Theorem Lock_ignores_listing_order :
  forall (fuel : nat) (g : GlobalLock) (children children' : list string)
         st cerr (rest : list reply),
    Permutation children children' ->
    snd (run (lockLoop fuel g) (RChildren (children, st, cerr) :: rest))
    = snd (run (lockLoop fuel g) (RChildren (children', st, cerr) :: rest)) /\
    tl (fst (run (lockLoop fuel g) (RChildren (children, st, cerr) :: rest)))
    = tl (fst (run (lockLoop fuel g) (RChildren (children', st, cerr) :: rest))).
Proof.
  intros [|fuel] g children children' st cerr rest P; [split; reflexivity|].
  assert (E : sort.Strings children = sort.Strings children').
  { apply Strings_unique; [|apply Strings_sorted].
    rewrite P. apply Strings_perm. }
  rewrite !run_lockLoop. cbv zeta. rewrite E.
  destruct (run _ rest) as [log o]. split; reflexivity.
Qed.

Lemma Lock_ignores_listing_order_witness :
  Permutation ["0000000003"; "0000000001"]%string ["0000000001"; "0000000003"]%string /\
  snd (run (lockLoop 1 queuedHandle)
           [RChildren (["0000000003"; "0000000001"]%string, None, None)])
  = snd (run (lockLoop 1 queuedHandle)
             [RChildren (["0000000001"; "0000000003"]%string, None, None)]).
Proof.
  split; [apply perm_swap|].
  exact (proj1 (Lock_ignores_listing_order 1%nat queuedHandle
                  ["0000000003"; "0000000001"]%string
                  ["0000000001"; "0000000003"]%string None None []
                  (perm_swap _ _ _))).
Defined.

(** ** [Lock] and [Unlock] together *)


(** X10.  [Lock] and then [Unlock] bring a new handle back to where it
    started.  When [Lock] on a handle made by [NewGlobalLock] returns
    [nil], the handle holds the lock and carries the path [Create] was
    answered with; [Unlock] then deletes exactly that path, and on a [nil]
    answer the handle is again the one [NewGlobalLock] made. *)
Theorem Lock_then_Unlock_restores :
  forall (fuel : nat) (session : ZkSession) (rootPath : string) script log g',
    run (Lock fuel (NewGlobalLock session rootPath)) script = (log, Returned (g', None)) ->
    exists created tail,
      log = Ev (Create (Connection session) (rootPath ++ "/")%string ""
                       (Z.lor EPHEMERAL SEQUENCE) (WorldACL PERM_ALL))
               (created, None) :: tail /\
      g' = {| Session := session; root := rootPath;
              ephemeralPath := created; locked := true |} /\
      forall rest,
        run (Unlock g') (RDelete None :: rest)
        = ([Ev (Delete (Connection session) created (-1)) None],
           Returned (NewGlobalLock session rootPath, None)).
Proof.
  intros fuel session rootPath script log g' H.
  destruct (Lock_returned_cases fuel (NewGlobalLock session rootPath) script log
              (g', None) eq_refl eq_refl H)
    as (created & cerr & tail & -> & [(e & _ & _ & E)|(-> & e & _ & Hexit)]).
  - discriminate E.
  - destruct Hexit as [(E & _)|[(E & _)|(st & w & e' & E & _)]]; try discriminate E.
    injection E as ->.
    exists created, tail. split; [reflexivity|]. split; reflexivity.
Qed.

Lemma Lock_then_Unlock_restores_witness :
  run (Lock 1 freshHandle) uncontended
  = (fst (run (Lock 1 freshHandle) uncontended), Returned (heldHandle, None)) /\
  run (Unlock heldHandle) [RDelete None]
  = ([Ev (Delete 7%nat "/lock/0000000001" (-1)) None], Returned (freshHandle, None)).
Proof.
  split; [reflexivity|].
  destruct (Lock_then_Unlock_restores 1%nat exampleSession "/lock"%string uncontended
              _ heldHandle eq_refl) as (created & tail & _ & Hg & Hun).
  injection Hg as <-. exact (Hun []).
Defined.

(** X11.  After a failed [Lock] on a new handle.  If the handle carries no
    node path (this is the failed [Create] that was answered with an empty
    path), it is as [NewGlobalLock] made it, and [Lock] may be called
    again.  If it carries one, it does not hold the lock, every further
    [Lock] is refused with the "lock not obtained" error and without a
    call, and [Unlock] with a [nil] answer to its [Delete] of that path
    makes the handle new again. *)
Theorem failed_Lock_needs_Unlock :
  forall (fuel : nat) (session : ZkSession) (rootPath : string) script log g' err,
    run (Lock fuel (NewGlobalLock session rootPath)) script
    = (log, Returned (g', Some err)) ->
    locked g' = false /\
    (ephemeralPath g' = ""%string -> g' = NewGlobalLock session rootPath) /\
    (ephemeralPath g' <> ""%string ->
     (forall fuel' script',
         run (Lock fuel' g') script'
         = ([], Returned (g', Some (fmt.Errorf msgNotObtained (ephemeralPath g'))))) /\
     (forall rest,
         run (Unlock g') (RDelete None :: rest)
         = ([Ev (Delete (Connection session) (ephemeralPath g') (-1)) None],
            Returned (NewGlobalLock session rootPath, None)))).
Proof.
  intros fuel session rootPath script log g' err H.
  assert (Hg : exists created,
             g' = {| Session := session; root := rootPath;
                     ephemeralPath := created; locked := false |}).
  { destruct (Lock_returned_cases fuel (NewGlobalLock session rootPath) script log
                (g', Some err) eq_refl eq_refl H)
      as (created & cerr & tail & _ & [(e & _ & _ & E)|(_ & e & _ & Hexit)]).
    - injection E as -> _. now exists created.
    - destruct Hexit as [(E & _)|[(E & _)|(st & w & e' & E & _)]];
        try discriminate E; injection E as -> _; now exists created. }
  destruct Hg as [created ->]. cbn [locked ephemeralPath].
  split; [reflexivity|]. split.
  - intros ->. reflexivity.
  - intros Hne. split.
    + intros fuel' script'. now rewrite Lock_with_stale_path.
    + intros rest. reflexivity.
Qed.

Lemma failed_Lock_needs_Unlock_witness :
  run (Lock 2 freshHandle) watchFails
  = (fst (run (Lock 2 freshHandle) watchFails),
     Returned (queuedHandle, Some (ZkError (-4)))) /\
  run (Lock 2 queuedHandle) watchFails
  = ([], Returned (queuedHandle,
                   Some (fmt.Errorf msgNotObtained (ephemeralPath queuedHandle)))).
Proof.
  split; [reflexivity|].
  destruct (failed_Lock_needs_Unlock 2%nat exampleSession "/lock"%string watchFails
              _ queuedHandle (ZkError (-4)) eq_refl) as (_ & _ & Hstale).
  exact (proj1 (Hstale ltac:(discriminate)) 2%nat watchFails).
Defined.

(** ** When [Lock] panics *)

Section Panics.



End Panics.



(** ** The bound on the loops *)

Section Fuel.

Lemma snd_split_run {R : Type} (e : event) (p : list event * outcome R) :
  snd (let (log, o) := p in (e :: log, o)) = snd p.
Proof. now destruct p. Qed.

(** Each turn of either loop takes an answer of the client. *)
Lemma loops_no_diverge (fuel : nat) :
  (forall g script,
      (List.length script < fuel)%nat ->
      snd (run (lockLoop fuel g) script) <> Diverged) /\
  (forall g children myIndex script,
      (List.length script < fuel)%nat ->
      snd (run (watchLoop fuel g children myIndex) script) <> Diverged).
Proof.
  induction fuel as [|fuel [IHlock IHwatch]]; split; try (intros; lia).
  - intros g [|a rest] Hlen; [discriminate|]. cbn [List.length] in Hlen.
    rewrite run_lockLoop.
    destruct a as [?|[[children st] cerr]|?| |?]; try discriminate.
    cbv zeta. rewrite snd_split_run.
    destruct (len (sort.Strings children) =? 0); [discriminate|].
    destruct (index (sort.Strings children) 0); [|discriminate].
    destruct (String.eqb _ _); [discriminate|].
    apply IHwatch. lia.
  - intros g children myIndex script Hlen.
    destruct (index children (myIndex - 1)) as [predecessor|] eqn:Epred.
    2:{ rewrite run_watchLoop_panic by exact Epred. discriminate. }
    destruct script as [|a rest].
    { cbn [watchLoop]. rewrite Epred. discriminate. }
    cbn [List.length] in Hlen.
    rewrite (run_watchLoop _ _ _ _ predecessor) by exact Epred.
    destruct a as [?|?|[[stat w] err]| |?]; try discriminate.
    rewrite snd_split_run.
    destruct err as [err|]; [discriminate|].
    destruct stat as [st|].
    + destruct rest as [|b rest]; [discriminate|]. cbn [List.length] in Hlen.
      rewrite run_Recv. destruct b; try discriminate.
      rewrite snd_split_run. apply IHwatch. lia.
    + apply IHlock. lia.
Qed.

(** A run that did not stop at the bound is the same under a larger one. *)
Lemma loops_fuel_mono (fuel : nat) :
  (forall g script log o,
      run (lockLoop fuel g) script = (log, o) -> o <> Diverged ->
      run (lockLoop (S fuel) g) script = (log, o)) /\
  (forall g children myIndex script log o,
      run (watchLoop fuel g children myIndex) script = (log, o) -> o <> Diverged ->
      run (watchLoop (S fuel) g children myIndex) script = (log, o)).
Proof.
  induction fuel as [|fuel [IHlock IHwatch]]; split.
  - intros g script log o H Ho. injection H as _ <-. congruence.
  - intros g children myIndex script log o H Ho. injection H as _ <-. congruence.
  - intros g [|a rest] log o H Ho; [exact H|].
    rewrite run_lockLoop in H. rewrite run_lockLoop.
    destruct a as [?|[[children st] cerr]|?| |?]; try exact H.
    cbv zeta in H. cbv zeta.
    destruct (len (sort.Strings children) =? 0); [exact H|].
    destruct (index (sort.Strings children) 0); [|exact H].
    destruct (String.eqb _ _); [exact H|].
    split_run H as tl E.
    pose proof (IHwatch _ _ _ _ _ _ E Ho) as E2.
    unfold result in *. now rewrite E2.
  - intros g children myIndex script log o H Ho.
    destruct (index children (myIndex - 1)) as [predecessor|] eqn:Epred.
    2:{ rewrite run_watchLoop_panic in H by exact Epred.
        rewrite run_watchLoop_panic by exact Epred. exact H. }
    destruct script as [|a rest].
    { cbn [watchLoop] in H. rewrite Epred in H.
      cbn [watchLoop]. rewrite Epred. exact H. }
    rewrite (run_watchLoop _ _ _ _ predecessor) in H by exact Epred.
    rewrite (run_watchLoop _ _ _ _ predecessor) by exact Epred.
    destruct a as [?|?|[[stat w] err]| |?]; try exact H.
    destruct err as [err|]; [exact H|].
    destruct stat as [st|].
    + destruct rest as [|b rest]; [exact H|].
      rewrite run_Recv in H. rewrite run_Recv. destruct b; try exact H.
      split_run H as tl E. split_run E as tl' E'.
      pose proof (IHwatch _ _ _ _ _ _ E' Ho) as E2.
      unfold result in *. now rewrite E2.
    + split_run H as tl E.
      pose proof (IHlock _ _ _ _ E Ho) as E2.
      unfold result in *. now rewrite E2.
Qed.

Lemma Lock_fuel_mono (fuel : nat) (g : GlobalLock) script log o :
  run (Lock fuel g) script = (log, o) -> o <> Diverged ->
  run (Lock (S fuel) g) script = (log, o).
Proof.
  intros H Ho. destruct (locked g) eqn:Hl.
  { unfold Lock in H. rewrite Hl in H. unfold Lock. rewrite Hl. exact H. }
  destruct (String.eqb_spec (ephemeralPath g) "") as [Hp|Hp].
  2:{ rewrite (Lock_with_stale_path _ g Hl Hp) in H.
      rewrite (Lock_with_stale_path _ g Hl Hp). exact H. }
  destruct script as [|a rest].
  { unfold Lock in H. rewrite Hl, Hp in H. unfold Lock. rewrite Hl, Hp. exact H. }
  rewrite run_Lock_create in H by assumption.
  rewrite run_Lock_create by assumption.
  destruct a as [[created [cerr|]]|?|?| |?]; try exact H.
  split_run H as tl E.
  pose proof (proj1 (loops_fuel_mono fuel) _ _ _ _ E Ho) as E2.
  unfold result in *. now rewrite E2.
Qed.

Lemma Lock_no_diverge (fuel : nat) (g : GlobalLock) script :
  (List.length script < fuel)%nat -> snd (run (Lock fuel g) script) <> Diverged.
Proof.
  intros Hlen. destruct (locked g) eqn:Hl.
  { unfold Lock. rewrite Hl. discriminate. }
  destruct (String.eqb_spec (ephemeralPath g) "") as [Hp|Hp].
  2:{ rewrite (Lock_with_stale_path _ g Hl Hp). discriminate. }
  destruct script as [|a rest].
  { unfold Lock. rewrite Hl, Hp. discriminate. }
  cbn [List.length] in Hlen.
  rewrite run_Lock_create by assumption.
  destruct a as [[created [cerr|]]|?|?| |?]; try discriminate.
  rewrite snd_split_run. apply (proj1 (loops_no_diverge fuel)). lia.
Qed.

End Fuel.

(** X13.  [Lock] never spins: every turn of its two loops makes a call to
    the client.  On [n] answers of the client, a run is not cut short by
    any bound above [n] on the number of turns, and is the same for every
    such bound; it returns, panics, or is left waiting for the client. *)
Theorem Lock_no_busy_loop :
  forall (g : GlobalLock) (script : list reply) (fuel fuel' : nat),
    (List.length script < fuel)%nat -> (fuel <= fuel')%nat ->
    snd (run (Lock fuel g) script) <> Diverged /\
    run (Lock fuel' g) script = run (Lock fuel g) script.
Proof.
  intros g script fuel fuel' Hlen Hle.
  pose proof (Lock_no_diverge fuel g script Hlen) as Hnd.
  split; [exact Hnd|].
  induction Hle as [|fuel' Hle IH]; [reflexivity|].
  destruct (run (Lock fuel g) script) as [log o] eqn:E.
  now apply Lock_fuel_mono.
Qed.

Lemma Lock_no_busy_loop_witness :
  ((List.length watchFails < 4)%nat /\ (4 <= 9)%nat) /\
  run (Lock 9 freshHandle) watchFails = run (Lock 4 freshHandle) watchFails.
Proof.
  split; [split; cbn; lia|].
  exact (proj2 (Lock_no_busy_loop freshHandle watchFails 4%nat 9%nat
                  ltac:(cbn; lia) ltac:(lia))).
Defined.

(** ** When a listing gives the lock *)

Section Least.

(** The first entry of the sorted slice is the listed name that no listed
    name is below. *)
Lemma hd_Strings_least (children : list string) (x : string) :
  hd_error (sort.Strings children) = Some x <->
  In x children /\ forall name, In name children -> String.leb x name = true.
Proof.
  pose proof (Strings_sorted children) as Hs.
  pose proof (Strings_perm children) as Hp.
  split.
  - intros Hhd. destruct (sort.Strings children) as [|y sorted] eqn:E; [discriminate|].
    injection Hhd as ->. apply StronglySorted_inv in Hs as [_ F].
    rewrite Forall_forall in F. split.
    + eapply Permutation_in; [symmetry; exact Hp|now left].
    + intros name Hin.
      assert (In name (x :: sorted)) as [<-|Hin']
          by (eapply Permutation_in; [exact Hp|exact Hin]).
      * apply byName_refl.
      * now apply F.
  - intros [Hin Hleast].
    destruct (sort.Strings children) as [|y sorted] eqn:E.
    + apply Permutation_sym, Permutation_nil in Hp. subst. contradiction.
    + cbn. f_equal. apply byName_antisym.
      * apply StronglySorted_inv in Hs as [_ F]. rewrite Forall_forall in F.
        assert (In x (y :: sorted)) as [->|Hin']
            by (eapply Permutation_in; [exact Hp|exact Hin]).
        -- apply byName_refl.
        -- now apply F.
      * apply Hleast. eapply Permutation_in; [symmetry; exact Hp|now left].
Qed.

End Least.

(** X14.  A turn of the outer loop ends [Lock] with the lock, right after
    the listing, exactly when the own name is in the listing and no listed
    name is below it in byte order. *)
Theorem Lock_takes_lock_iff_least :
  forall (fuel : nat) (g : GlobalLock) (children : list string) st cerr
         (rest : list reply),
    let own := path.Base (ephemeralPath g) in
    (In own children /\ forall name, In name children -> String.leb own name = true)
    <->
    run (lockLoop (S fuel) g) (RChildren (children, st, cerr) :: rest)
    = ([Ev (Children (conn g) (root g)) (children, st, cerr)],
       Returned (set_locked g true, None)).
Proof.
  intros fuel g children st cerr rest own. split.
  - intros H. apply lockLoop_granting_turn. now apply hd_Strings_least.
  - intros H. apply hd_Strings_least.
    rewrite run_lockLoop in H. cbv zeta in H. fold own in H.
    destruct (len (sort.Strings children) =? 0) eqn:Elen.
    { cbn in H. discriminate H. }
    destruct (nonempty_slice _ Elen) as [first Hfirst]. rewrite Hfirst in H.
    destruct (String.eqb first own) eqn:Eown.
    + apply String.eqb_eq in Eown. subst first. now rewrite <- index_hd.
    + match type of H with
      | (let (_, _) := ?t in _) = _ => destruct t as [tl o] eqn:E
      end.
      assert (Htl : tl = []) by (injection H as Htl _; exact Htl).
      assert (Ho : o = Returned (set_locked g true, None)) by congruence.
      subst tl o.
      destruct (proj2 (loops_returned fuel) _ _ _ _ _ _ E) as (e & Hlast & _).
      discriminate Hlast.
Qed.

Lemma Lock_takes_lock_iff_least_witness :
  (In (path.Base (ephemeralPath queuedHandle)) ["0000000003"; "0000000001"]%string /\
   forall name, In name ["0000000003"; "0000000001"]%string ->
                String.leb (path.Base (ephemeralPath queuedHandle)) name = true) /\
  run (lockLoop 1 queuedHandle)
      [RChildren (["0000000003"; "0000000001"]%string, None, None)]
  = ([Ev (Children 7%nat "/lock") (["0000000003"; "0000000001"]%string, None, None)],
     Returned (heldHandle, None)).
Proof.
  assert (H : In (path.Base (ephemeralPath queuedHandle))
                 ["0000000003"; "0000000001"]%string /\
              forall name, In name ["0000000003"; "0000000001"]%string ->
                String.leb (path.Base (ephemeralPath queuedHandle)) name = true).
  { split; [right; now left|].
    intros name [<-|[<-|[]]]; reflexivity. }
  split; [exact H|].
  exact (proj1 (Lock_takes_lock_iff_least 0%nat queuedHandle
                  ["0000000003"; "0000000001"]%string None None []) H).
Defined.
